(** * jq-language-support: definition recovery, token classification, completion

    A shallow embedding of [src/extension.ts] (the version with split
    [valueArgs]/[filterArgs] and indentation-based extents):
    [JQParser.parse], [JQParser.isInComment],
    [JQSemanticTokensProvider.provideDocumentSemanticTokens] and
    [JQCompletionItemProvider.provideCompletionItems].

    A JavaScript string is a sequence of UTF-16 code units; it is modelled
    as [list N].  Line numbers, offsets and lengths are [nat]; the index
    arithmetic of [isInComment], where [-1] occurs, is done in [Z]. *)

From Stdlib Require Import List NArith ZArith Lia Bool Ascii String DecimalString.
From stdpp Require Import base option list gmap.
Import ListNotations.

#[local] Open Scope nat_scope.

(** ** Strings *)

Abbreviation str := (list N).

(** An ASCII literal as a JavaScript string. *)
Definition js (s : string) : str :=
  map N_of_ascii (list_ascii_of_string s).

Definition LF : N := 10.
Definition CR : N := 13.
Definition HASH : N := 35.
Definition DOLLAR : N := 36.
Definition LPAREN : N := 40.
Definition RPAREN : N := 41.
Definition COLON : N := 58.
Definition SEMI : N := 59.

Definition inRange (lo hi c : N) : bool := (lo <=? c)%N && (c <=? hi)%N.

(** [\s] of a JavaScript regular expression, which is also the set removed
    by [trim]: WhiteSpace and LineTerminator of ECMAScript. *)
Definition isSpace (c : N) : bool :=
  inRange 9 13 c || (c =? 32)%N || (c =? 160)%N || (c =? 5760)%N
  || inRange 8192 8202 c || (c =? 8232)%N || (c =? 8233)%N
  || (c =? 8239)%N || (c =? 8287)%N || (c =? 12288)%N || (c =? 65279)%N.

(** [[a-zA-Z_]] *)
Definition isIdentStart (c : N) : bool :=
  inRange 97 122 c || inRange 65 90 c || (c =? 95)%N.

(** [[a-zA-Z0-9_]] *)
Definition isIdentChar (c : N) : bool :=
  inRange 97 122 c || inRange 65 90 c || inRange 48 57 c || (c =? 95)%N.

(** [[^)]] *)
Definition notRParen (c : N) : bool := negb (c =? RPAREN)%N.

Definition isChar (d : N) (c : N) : bool := (c =? d)%N.

Fixpoint takeWhile (p : N -> bool) (s : str) : str :=
  match s with
  | c :: s' => if p c then c :: takeWhile p s' else []
  | [] => []
  end.

Fixpoint dropWhile (p : N -> bool) (s : str) : str :=
  match s with
  | c :: s' => if p c then dropWhile p s' else s
  | [] => []
  end.

(** [String.prototype.trimStart], [trimEnd], [trim]. *)
Definition trimStart (s : str) : str := dropWhile isSpace s.
Definition trimEnd (s : str) : str := rev (dropWhile isSpace (rev s)).
Definition trim (s : str) : str := trimEnd (trimStart s).

(** [s.startsWith(c)] for a one-unit search string. *)
Definition startsWith (c : N) (s : str) : bool :=
  match s with
  | x :: _ => (x =? c)%N
  | [] => false
  end.

(** [s.substring(1)] *)
Definition substring1 (s : str) : str := drop 1 s.

(** Truthiness of a string: non-empty. *)
Definition truthy (s : str) : bool :=
  match s with [] => false | _ :: _ => true end.

Definition str_eqb (a b : str) : bool := bool_decide (a = b).

Definition cons_first (c : N) (ls : list str) : list str :=
  match ls with
  | l :: ls' => (c :: l) :: ls'
  | [] => [[c]]
  end.

(** [s.split(sep)] for a one-unit separator string; the empty string gives
    one empty piece. *)
Fixpoint split_on (sep : N) (s : str) : list str :=
  match s with
  | [] => [[]]
  | c :: rest =>
      if (c =? sep)%N then [] :: split_on sep rest
      else cons_first c (split_on sep rest)
  end.

Definition startsWithLF (s : str) : bool := startsWith LF s.

(** [text.split(/\r?\n/)]: every LF ends a piece, and a CR standing
    immediately before an LF belongs to the separator. *)
Fixpoint split_lines (s : str) : list str :=
  match s with
  | [] => [[]]
  | c :: rest =>
      if (c =? LF)%N then [] :: split_lines rest
      else if (c =? CR)%N && startsWithLF rest then split_lines rest
      else cons_first c (split_lines rest)
  end.

(** ** Regular expressions

    The fragment of JavaScript regular expressions the source uses,
    matched by backtracking: greedy star over a character class, greedy
    optional group, capture groups.  A capture that did not take part in
    the match is absent from the capture list ([undefined]). *)

Inductive regex : Type :=
| Eps
| Class (p : N -> bool)
| Seq (r1 r2 : regex)
| Star (p : N -> bool)
| Opt (r : regex)
| Group (n : nat) (r : regex).

Definition Plus (p : N -> bool) : regex := Seq (Class p) (Star p).

Definition seqs (rs : list regex) : regex := foldr Seq Eps rs.

Definition Lit (s : string) : regex :=
  seqs (map (fun c => Class (isChar c)) (js s)).

Definition captures := list (nat * str).

Definition getCapture (n : nat) (c : captures) : option str :=
  snd <$> List.find (fun e => Nat.eqb (fst e) n) c.

Record matched := { m_rest : str; m_caps : captures }.

Fixpoint starK (p : N -> bool) (k : str -> option matched) (s : str)
  : option matched :=
  match s with
  | c :: s' =>
      if p c then
        match starK p k s' with
        | Some r => Some r
        | None => k s
        end
      else k s
  | [] => k s
  end.

Fixpoint rmatch (r : regex) (s : str) (caps : captures)
    (k : str -> captures -> option matched) : option matched :=
  match r with
  | Eps => k s caps
  | Class p =>
      match s with
      | c :: s' => if p c then k s' caps else None
      | [] => None
      end
  | Seq r1 r2 => rmatch r1 s caps (fun s1 c1 => rmatch r2 s1 c1 k)
  | Star p => starK p (fun s' => k s' caps) s
  | Opt r' =>
      match rmatch r' s caps k with
      | Some x => Some x
      | None => k s caps
      end
  | Group n r' =>
      rmatch r' s caps
        (fun s' c' => k s' ((n, take (length s - length s') s) :: c'))
  end.

(** One attempt at the start of [s]; this is all of [exec] for a pattern
    that begins with [^] and has no [m] flag. *)
Definition matchAt (r : regex) (s : str) : option matched :=
  rmatch r s [] (fun rest caps => Some {| m_rest := rest; m_caps := caps |}).

(** [match[0]] of a match of [s] that left [rest] unread. *)
Definition matchedText (s rest : str) : str :=
  take (length s - length rest) s.

(** [exec] of an unanchored pattern from index [i], [s] being the text
    from [i] on: the leftmost start that matches.  Gives the index, the
    matched text and the text after it. *)
Fixpoint search (r : regex) (s : str) (i : nat) : option (nat * str * str) :=
  match matchAt r s with
  | Some m => Some (i, matchedText s (m_rest m), m_rest m)
  | None =>
      match s with
      | [] => None
      | _ :: s' => search r s' (S i)
      end
  end.

(** ** Outcomes

    A JavaScript call either returns, throws ([TypeError]: a method of
    [undefined] was called; [IllegalArgument]: the host refused an
    argument), or does not return; a loop whose bound is not visible in its
    shape is run on fuel, and [OutOfFuel] marks a run the fuel did not
    cover. *)

Inductive outcome (A : Type) : Type :=
| Ok (a : A)
| TypeError
| OutOfFuel
| IllegalArgument.
Arguments Ok {A} a.
Arguments TypeError {A}.
Arguments OutOfFuel {A}.
Arguments IllegalArgument {A}.

#[global] Instance outcome_ret : MRet outcome := fun A a => Ok a.
#[global] Instance outcome_bind : MBind outcome := fun A B f m =>
  match m with
  | Ok a => f a
  | TypeError => TypeError
  | OutOfFuel => OutOfFuel
  | IllegalArgument => IllegalArgument
  end.

(** ** JQParser *)

Record JQFunction : Type := {
  name : str;
  valueArgs : list str;
  filterArgs : list str;
  startLine : nat;
  endLine : nat
}.

(** The entries of [defs], the result of the first pass. *)
Record JQDef : Type := {
  def_name : str;
  def_valueArgs : list str;
  def_filterArgs : list str;
  def_startLine : nat;
  def_indent : nat
}.

(** The header pattern, written here with blanks between its parts:
    [^ ( \s* ) def \s+ ( [a-zA-Z_] [a-zA-Z0-9_]* ) (?: \( ( [^)]* ) \) )? \s* :] *)
Definition defRegex : regex :=
  seqs [ Group 1 (Star isSpace);
         Lit "def";
         Plus isSpace;
         Group 2 (Seq (Class isIdentStart) (Star isIdentChar));
         Opt (seqs [ Class (isChar LPAREN);
                     Group 3 (Star notRParen);
                     Class (isChar RPAREN) ]);
         Star isSpace;
         Class (isChar COLON) ].

(** [match[n]] where the code needs a string: [match[1].length] throws on
    [undefined], and [match[2]] goes into a field of type [string], where
    [undefined] is counted as the same failure. *)
Definition group (n : nat) (m : matched) : outcome str :=
  match getCapture n (m_caps m) with
  | Some s => Ok s
  | None => TypeError
  end.

(** [rawArgsStr.split(';').map(s => s.trim()).filter(s => s)] *)
Definition splitArgs (rawArgsStr : str) : list str :=
  List.filter truthy (map trim (split_on SEMI rawArgsStr)).

(** The body of the first loop when [match] is not [null]: the entry pushed
    on [defs] for line [i]. *)
Definition defOfMatch (i : nat) (m : matched) : outcome JQDef :=
  g1 ← group 1 m;
  let indent := length g1 in
  funcName ← group 2 m;
  let rawArgsStr := default [] (getCapture 3 (m_caps m)) in
  let args := splitArgs rawArgsStr in
  let valueArgs := List.filter (startsWith DOLLAR) args in
  let filterArgs := List.filter (fun a => negb (startsWith DOLLAR a)) args in
  Ok {| def_name := funcName;
        def_valueArgs := valueArgs;
        def_filterArgs := filterArgs;
        def_startLine := i;
        def_indent := indent |}.

(** First pass: the loop over [lines], [i] being the index of the head of
    [lines]. *)
Fixpoint collectDefs (i : nat) (lines : list str) : outcome (list JQDef) :=
  match lines with
  | [] => Ok []
  | l :: rest =>
      match matchAt defRegex l with
      | Some m =>
          d ← defOfMatch i m;
          defs ← collectDefs (S i) rest;
          Ok (d :: defs)
      | None => collectDefs (S i) rest
      end
  end.

(** [lines[j].length - lines[j].trimStart().length] *)
Definition lineIndent (l : str) : nat := length l - length (trimStart l).

(** The inner loop of the second pass from [j] on, [ls] being
    [lines[j..]] and [endLine] the value held when the loop is entered. *)
Fixpoint findEnd (indent : nat) (j : nat) (ls : list str) (endLine : nat)
  : nat :=
  match ls with
  | [] => endLine
  | l :: ls' =>
      let line := trim l in
      if negb (truthy line) || startsWith HASH line
      then findEnd indent (S j) ls' endLine
      else if lineIndent l <=? indent then j - 1
      else findEnd indent (S j) ls' endLine
  end.

(** Second pass, one definition. *)
Definition closeDef (lines : list str) (currentDef : JQDef) : JQFunction :=
  let endLine := length lines - 1 in
  let endLine :=
    findEnd (def_indent currentDef) (def_startLine currentDef + 1)
            (drop (def_startLine currentDef + 1) lines) endLine in
  {| name := def_name currentDef;
     valueArgs := def_valueArgs currentDef;
     filterArgs := def_filterArgs currentDef;
     startLine := def_startLine currentDef;
     endLine := endLine |}.

Definition parse (text : str) : outcome (list JQFunction) :=
  let lines := split_lines text in
  defs ← collectDefs 0 lines;
  Ok (map (closeDef lines) defs).

(** [s.lastIndexOf(c, position)] for a one-unit search string: the largest
    index not above [max 0 position] that holds [c], or [-1]. *)
Fixpoint lastIndexOf_from (c : N) (start : Z) (s : str) (i found : Z) : Z :=
  match s with
  | [] => found
  | x :: s' =>
      lastIndexOf_from c start s' (i + 1)
        (if (i <=? start)%Z && (x =? c)%N then i else found)
  end.

Definition lastIndexOf (s : str) (c : N) (position : Z) : Z :=
  lastIndexOf_from c (Z.max 0 position) s 0 (-1).

(** [s.indexOf(c, position)]: the least index not below [max 0 position]
    that holds [c], or [-1]. *)
Fixpoint indexOf_from (c : N) (start : Z) (s : str) (i : Z) : Z :=
  match s with
  | [] => -1
  | x :: s' =>
      if (start <=? i)%Z && (x =? c)%N then i
      else indexOf_from c start s' (i + 1)
  end.

Definition indexOf (s : str) (c : N) (position : Z) : Z :=
  indexOf_from c (Z.max 0 position) s 0.

(** [s.substring(a, b)]: both ends clamped to [0, s.length], swapped when
    out of order. *)
Definition substring (s : str) (a b : Z) : str :=
  let len := Z.of_nat (length s) in
  let a' := Z.min (Z.max a 0) len in
  let b' := Z.min (Z.max b 0) len in
  let lo := Z.min a' b' in
  let hi := Z.max a' b' in
  take (Z.to_nat (hi - lo)) (drop (Z.to_nat lo) s).

(** [^ \s* #] *)
Definition commentRegex : regex :=
  seqs [ Star isSpace; Class (isChar HASH) ].

(** [regex.test(s)] for an anchored pattern. *)
Definition test (r : regex) (s : str) : bool :=
  match matchAt r s with Some _ => true | None => false end.

Definition isInComment (text : str) (offset : Z) : bool :=
  let lineStart := (lastIndexOf text LF (offset - 1) + 1)%Z in
  let line :=
    substring text lineStart
      (if (indexOf text LF (lineStart + 1) =? -1)%Z
       then Z.of_nat (length text)
       else indexOf text LF (lineStart + 1)) in
  test commentRegex line.

(** ** The host document

    [document.positionAt(offset)] belongs to the editor.  For a document
    whose text is [text] it gives the number of line feeds before
    [offset] as the line, and the distance from the last of them as the
    character; the editor ends every line with LF or with CR LF, so the
    line feeds count the line breaks, as they do in [split_lines]. *)

Record Position : Type := { line : nat; character : nat }.

Definition notLF (c : N) : bool := negb (c =? LF)%N.

Definition positionAt (text : str) (offset : nat) : Position :=
  let before := take offset text in
  {| line := length (List.filter (isChar LF) before);
     character := length (takeWhile notLF (rev before)) |}.

(** [position.translate(lineDelta, characterDelta)] of the host: the same
    position when both deltas are zero, otherwise a new [Position], whose
    constructor throws when the line or the character is negative. *)
Definition translate (position : Position) (lineDelta characterDelta : Z)
  : outcome Position :=
  if (lineDelta =? 0)%Z && (characterDelta =? 0)%Z then Ok position
  else
    let l := (Z.of_nat (line position) + lineDelta)%Z in
    let c := (Z.of_nat (character position) + characterDelta)%Z in
    if (l <? 0)%Z || (c <? 0)%Z then IllegalArgument
    else Ok {| line := Z.to_nat l; character := Z.to_nat c |}.

(** ** JQSemanticTokensProvider *)

(** Which of the three [tokensBuilder.push] calls of the token loop ran:
    the one under priority 1, 2 or 3. *)
Inductive category : Type :=
| parameter
| function_user
| function_builtin.

(** The legend entry each call passes. *)
Definition tokenType (c : category) : string :=
  match c with
  | parameter => "parameter"
  | function_user => "function"
  | function_builtin => "function"
  end.

(** What one [push] records: [Range(position, position.translate(0,
    word.length))] and the category. *)
Record ClassifiedSpan : Type := {
  span_start : Position;
  span_length : nat;
  span_category : category
}.

(** [( [a-zA-Z_] [a-zA-Z0-9_]* )] with the [g] flag. *)
Definition tokenRegex : regex :=
  Group 1 (Seq (Class isIdentStart) (Star isIdentChar)).

(** The successive results of [r.exec(text)] for a [g] pattern, until
    [null]: each is the index and the text of a match, and the next search
    starts where the match ended.  [rest] is the text from [lastIndex]
    on. *)
Fixpoint execAll (fuel : nat) (r : regex) (rest : str) (lastIndex : nat)
  : outcome (list (nat * str)) :=
  match fuel with
  | 0 => OutOfFuel
  | S fuel' =>
      match search r rest lastIndex with
      | None => Ok []
      | Some (index, word, rest') =>
          more ← execAll fuel' r rest' (index + length word);
          Ok ((index, word) :: more)
      end
  end.

(** [arg.startsWith('$') ? arg.substring(1) : arg] *)
Definition stripSigil (arg : str) : str :=
  if startsWith DOLLAR arg then substring1 arg else arg.

Definition userFuncNames (userFunctions : list JQFunction) : gset str :=
  list_to_set (map name userFunctions).

Definition allParams (userFunctions : list JQFunction) : gset str :=
  fold_left
    (fun acc f =>
       let acc :=
         fold_left (fun acc arg => {[ stripSigil arg ]} ∪ acc)
                   (valueArgs f) acc in
       fold_left (fun acc arg => {[ arg ]} ∪ acc) (filterArgs f) acc)
    userFunctions ∅.

Definition inRangeOf (l : nat) (f : JQFunction) : bool :=
  (startLine f <=? l) && (l <=? endLine f).

Definition getContextFunction (userFunctions : list JQFunction) (l : nat)
  : option JQFunction :=
  List.find (inRangeOf l) userFunctions.

Definition isValueParam (contextFunc : JQFunction) (word : str) : bool :=
  existsb (fun arg => str_eqb (stripSigil arg) word) (valueArgs contextFunc).

Definition isFilterParam (contextFunc : JQFunction) (word : str) : bool :=
  existsb (fun arg => str_eqb arg word) (filterArgs contextFunc).

Section Classifier.

(** The names of [builtins.json], which is not among the sources. *)
Variable BUILTINS : list str.

(** One turn of the token loop: the span pushed for the match [word] at
    [offset], if any. *)
Definition classifyToken (text : str) (userFunctions : list JQFunction)
    (offset : nat) (word : str) : option ClassifiedSpan :=
  let position := positionAt text offset in
  let push c :=
    Some {| span_start := position;
            span_length := length word;
            span_category := c |} in
  if isInComment text (Z.of_nat offset) then None
  else
    let contextFunc := getContextFunction userFunctions (line position) in
    if match contextFunc with
       | Some cf => isValueParam cf word || isFilterParam cf word
       | None => false
       end
    then push parameter
    else if bool_decide (word ∈ userFuncNames userFunctions)
    then push function_user
    else if bool_decide (word ∈ BUILTINS)
            && negb (bool_decide (word ∈ allParams userFunctions))
    then push function_builtin
    else None.

(** The token loop of [provideDocumentSemanticTokens]; the body of a turn
    does not touch [tokenRegex], so the matches are listed first. *)
Definition classifyTokens (text : str) (definitions : list JQFunction)
  : outcome (list ClassifiedSpan) :=
  tokens ← execAll (S (length text)) tokenRegex text 0;
  Ok (omap (M:=list)
        (fun t => classifyToken text definitions t.1 t.2) tokens).

Definition provideDocumentSemanticTokens (text : str)
  : outcome (list ClassifiedSpan) :=
  userFunctions ← parse text;
  classifyTokens text userFunctions.

End Classifier.

(** ** JQCompletionItemProvider *)

Inductive CompletionItemKind : Type :=
| KindVariable
| KindFunction.

(** [insertText] is a plain string or a [vscode.SnippetString]. *)
Inductive InsertText : Type :=
| PlainText (s : str)
| SnippetString (s : str).

(** A [vscode.CompletionItem]; a field never assigned is [None]. *)
Record CompletionItem : Type := {
  label : str;
  kind : CompletionItemKind;
  detail : option str;
  sortText : option str;
  insertText : option InsertText;
  filterText : option str
}.

(** [new vscode.CompletionItem(label, kind)] *)
Definition newCompletionItem (l : str) (k : CompletionItemKind)
  : CompletionItem :=
  {| label := l; kind := k; detail := None; sortText := None;
     insertText := None; filterText := None |}.

(** Decimal digits of a number, as a template literal prints it. *)
Definition decimal (n : nat) : str :=
  js (NilEmpty.string_of_uint (Nat.to_uint n)).

(** [pieces.join(sep)] *)
Fixpoint join (sep : str) (pieces : list str) : str :=
  match pieces with
  | [] => []
  | [p] => p
  | p :: rest => p ++ sep ++ join sep rest
  end.

Definition valueParamItem (currentFunc : JQFunction) (charBeforeCursor : str)
    (arg : str) : CompletionItem :=
  let fullVarName := if startsWith DOLLAR arg then arg else DOLLAR :: arg in
  let paramName := stripSigil arg in
  let item := newCompletionItem fullVarName KindVariable in
  let isTriggeredByDollar := str_eqb charBeforeCursor [DOLLAR] in
  {| label := label item;
     kind := kind item;
     detail := Some (js "Value parameter of " ++ name currentFunc);
     sortText := Some (js "0000");
     insertText :=
       Some (PlainText (if isTriggeredByDollar then paramName
                        else fullVarName));
     filterText := if isTriggeredByDollar then Some paramName else None |}.

Definition filterParamItem (currentFunc : JQFunction) (arg : str)
  : CompletionItem :=
  let item := newCompletionItem arg KindVariable in
  {| label := label item;
     kind := kind item;
     detail := Some (js "Filter parameter of " ++ name currentFunc);
     sortText := Some (js "0001");
     insertText := Some (PlainText arg);
     filterText := filterText item |}.

(** [`\${${idx + 1}:${paramName}}`] *)
Definition placeholder (idx : nat) (arg : str) : str :=
  js "${" ++ decimal (idx + 1) ++ js ":" ++ stripSigil arg ++ js "}".

Definition functionItem (f : JQFunction) : CompletionItem :=
  let item := newCompletionItem (name f) KindFunction in
  let allArgs := valueArgs f ++ filterArgs f in
  {| label := label item;
     kind := kind item;
     detail := Some (js "User defined function");
     sortText := sortText item;
     insertText :=
       Some (if 0 <? length allArgs
             then
               let argsSnippet := join (js "; ") (imap placeholder allArgs) in
               SnippetString (name f ++ js "(" ++ argsSnippet ++ js ")")
             else PlainText (name f));
     filterText := filterText item |}.

(** [f.name !== currentFunc?.name] *)
Definition otherName (currentFunc : option JQFunction) (f : JQFunction)
  : bool :=
  match currentFunc with
  | Some cf => negb (str_eqb (name f) (name cf))
  | None => true
  end.

(** [completions.push(item)] *)
Definition push {A : Type} (completions : list A) (item : A) : list A :=
  completions ++ [item].

(** [list.forEach(callback)] for a callback that may throw: the first throw
    ends the loop. *)
Fixpoint forEach {A S : Type} (callback : S -> A -> outcome S) (l : list A)
    (s : S) : outcome S :=
  match l with
  | [] => Ok s
  | a :: l' => s' ← callback s a; forEach callback l' s'
  end.

Section Completion.

Variable BUILTINS : list str.

(** The callback of [currentFunc.valueArgs.forEach]: it builds the range
    before the cursor with [position.translate(0, -1)], and only then asks
    whether the cursor is past column 0.  [rangeText] is what the host
    gives for [document.getText(range)]. *)
Definition pushValueParam (currentFunc : JQFunction) (position : Position)
    (rangeText : str) (completions : list CompletionItem) (arg : str)
  : outcome (list CompletionItem) :=
  rangeStart ← translate position 0 (-1);
  let range := (rangeStart, position) in
  let charBeforeCursor :=
    if 0 <? character position then rangeText else [] in
  Ok (push completions (valueParamItem currentFunc charBeforeCursor arg)).

Definition provideCompletionItems (text : str) (position : Position)
    (rangeText : str) : outcome (list CompletionItem) :=
  let completions : list CompletionItem := [] in
  functions ← parse text;
  let currentFunc := List.find (inRangeOf (line position)) functions in
  completions ←
    match currentFunc with
    | Some cf =>
        completions ←
          forEach (pushValueParam cf position rangeText)
                  (valueArgs cf) completions;
        Ok (fold_left (fun acc arg => push acc (filterParamItem cf arg))
                      (filterArgs cf) completions)
    | None => Ok completions
    end;
  let completions :=
    fold_left
      (fun acc f =>
         if otherName currentFunc f then push acc (functionItem f) else acc)
      functions completions in
  let completions :=
    fold_left
      (fun acc b => push acc (newCompletionItem b KindFunction))
      BUILTINS completions in
  Ok completions.

End Completion.

(** ** Examples *)

Definition example_text : str :=
  js "def foo($a; b):" ++ [LF] ++ js "  $a + b" ++ [LF] ++
  js "def bar:" ++ [LF] ++ js "  foo(1;2)".

(** The built-in names listed in the first version of [extension.ts]. *)
Definition BUILTINS_v1 : list str :=
  map js [ "length"; "keys"; "map"; "select"; "has"; "contains"; "unique";
    "sort"; "group_by"; "to_entries"; "from_entries"; "split"; "join";
    "tostring"; "tonumber"; "range"; "limit"; "isempty"; "error"; "empty";
    "debug"; "type"; "del"; "walk"; "transpose"; "all"; "any" ]%string.

Definition foo_record : JQFunction :=
  {| name := js "foo"; valueArgs := [js "$a"]; filterArgs := [js "b"];
     startLine := 0; endLine := 1 |}.

Definition bar_record : JQFunction :=
  {| name := js "bar"; valueArgs := []; filterArgs := [];
     startLine := 2; endLine := 3 |}.

(** A definition nested in another; its parameter has a built-in name. *)
Definition nested_text : str :=
  js "def f:" ++ [LF] ++ js "  def g(length): length".

Definition nested_f : JQFunction :=
  {| name := js "f"; valueArgs := []; filterArgs := [];
     startLine := 0; endLine := 1 |}.

Definition nested_g : JQFunction :=
  {| name := js "g"; valueArgs := []; filterArgs := [js "length"];
     startLine := 1; endLine := 1 |}.

(** A parameter with a built-in name, used again after the definition. *)
Definition shadow_text : str :=
  js "def f(keys): keys" ++ [LF] ++ js "keys".

Definition shadow_f : JQFunction :=
  {| name := js "f"; valueArgs := []; filterArgs := [js "keys"];
     startLine := 0; endLine := 0 |}.

(** A comment line, and a line with a hash sign in its middle. *)
Definition comment_text : str :=
  js "  # length" ++ [LF] ++ js "x # length".

Definition example_tokens : list (nat * str) :=
  [ (0, js "def"); (4, js "foo"); (9, js "a"); (12, js "b"); (19, js "a");
    (23, js "b"); (25, js "def"); (29, js "bar"); (36, js "foo") ].

Definition shadow_tokens : list (nat * str) :=
  [ (0, js "def"); (4, js "f"); (6, js "keys"); (13, js "keys");
    (18, js "keys") ].

Definition comment_tokens : list (nat * str) :=
  [ (4, js "length"); (11, js "x"); (15, js "length") ].

(** A header with an unclosed parenthesis. *)
Definition unclosed_text : str := js "def foo(a: x".

(** A header with one opening parenthesis too many. *)
Definition unbalanced_text : str := js "def f((a):".

Definition unbalanced_f : JQFunction :=
  {| name := js "f"; valueArgs := []; filterArgs := [js "(a"];
     startLine := 0; endLine := 0 |}.

(** How often a code unit occurs in a string. *)
Definition occurrences (c : N) (s : str) : nat :=
  length (List.filter (isChar c) s).

(** ** Header recognition without backtracking

    What the header pattern does on a line, step by step; [matchAt_defRegex]
    below shows that the backtracking matcher computes exactly this. *)

Fixpoint stripPrefix (pre s : str) : option str :=
  match pre, s with
  | [], _ => Some s
  | c :: pre', x :: s' => if isChar c x then stripPrefix pre' s' else None
  | _ :: _, [] => None
  end.

(** [\s* :] *)
Definition tailColon (s : str) (caps : captures) : option matched :=
  match dropWhile isSpace s with
  | c :: t =>
      if isChar COLON c then Some {| m_rest := t; m_caps := caps |} else None
  | [] => None
  end.

(** [\( ( [^)]* ) \) \s* :] *)
Definition argsGroup (s : str) (caps : captures) : option matched :=
  match s with
  | c :: s4 =>
      if isChar LPAREN c then
        match dropWhile notRParen s4 with
        | c' :: s6 =>
            if isChar RPAREN c'
            then tailColon s6 ((3, takeWhile notRParen s4) :: caps)
            else None
        | [] => None
        end
      else None
  | [] => None
  end.

Definition headerMatch (l : str) : option matched :=
  let caps1 := [(1, takeWhile isSpace l)] in
  match stripPrefix (js "def") (dropWhile isSpace l) with
  | Some (c :: s1) =>
      if isSpace c then
        match dropWhile isSpace s1 with
        | c2 :: s2 =>
            if isIdentStart c2 then
              let caps2 := (2, c2 :: takeWhile isIdentChar s2) :: caps1 in
              let s3 := dropWhile isIdentChar s2 in
              match argsGroup s3 caps2 with
              | Some m => Some m
              | None => tailColon s3 caps2
              end
            else None
        | [] => None
        end
      else None
  | _ => None
  end.

(** The continuation of a whole match. *)
Definition accept (rest : str) (caps : captures) : option matched :=
  Some {| m_rest := rest; m_caps := caps |}.

(** The parts of the header pattern from the identifier on. *)
Definition reTail : list regex := [Star isSpace; Class (isChar COLON)].

Definition reArgs : regex :=
  seqs [Class (isChar LPAREN); Group 3 (Star notRParen);
        Class (isChar RPAREN)].

Definition reName : regex :=
  Group 2 (Seq (Class isIdentStart) (Star isIdentChar)).

(** ** Notions of the statements *)

(** Length of the leading white space of a line. *)
Definition leadingSpace (l : str) : nat := length (takeWhile isSpace l).

(** The trimmed line starts with [#]. *)
Definition isCommentLine (l : str) : bool := startsWith HASH (trim l).

(** The line is empty after trimming. *)
Definition isBlankLine (l : str) : bool := negb (truthy (trim l)).

(** A line that is neither blank nor a comment and is indented by at most
    [N]. *)
Definition closesExtent (N : nat) (l : str) : bool :=
  negb (isBlankLine l || isCommentLine l) && (leadingSpace l <=? N).

(** Letters, digits and underscores, the first not a digit. *)
Definition isIdentifier (nm : str) : bool :=
  match nm with
  | c :: r => isIdentStart c && forallb isIdentChar r
  | [] => false
  end.

(** The argument list as it stands in a header, when there is one. *)
Definition parenthesized (raw : option str) : str :=
  match raw with
  | Some a => LPAREN :: a ++ [RPAREN]
  | None => []
  end.

(** A header: white space, [def], white space, the identifier, the
    argument list if any, white space, a colon, and whatever follows. *)
Definition headerLine (ws ws1 nm : str) (raw : option str) (ws2 tail : str)
  : str :=
  ws ++ js "def" ++ ws1 ++ nm ++ parenthesized raw ++ ws2 ++ COLON :: tail.

(** The parts of a header are as the pattern wants them: white space where
    it stands, an identifier, and no closing parenthesis inside the
    argument text. *)
Definition headerParts (ws ws1 nm : str) (raw : option str) (ws2 : str)
  : Prop :=
  forallb isSpace ws = true /\ ws1 <> [] /\ forallb isSpace ws1 = true /\
  isIdentifier nm = true /\ forallb notRParen (default [] raw) = true /\
  forallb isSpace ws2 = true.

(** The parameter names of a record as the classifier compares them. *)
Definition paramNames (f : JQFunction) : list str :=
  map stripSigil (valueArgs f) ++ filterArgs f.

(** The line of the document that holds [offset]. *)
Definition lineOf (text : str) (offset : nat) : str :=
  nth (line (positionAt text offset)) (split_lines text) [].

(** The tokens of the document: index and text of every match of the token
    loop. *)
Definition tokensOf (text : str) : outcome (list (nat * str)) :=
  execAll (S (length text)) tokenRegex text 0.

(** The category of the span the token loop pushes for a token, if it
    pushes one. *)
Definition categoryOf (BUILTINS : list str) (text : str)
    (definitions : list JQFunction) (offset : nat) (word : str)
  : option category :=
  span_category <$> classifyToken BUILTINS text definitions offset word.

(** The range of a record holds a line. *)
Definition holdsLine (f : JQFunction) (l : nat) : Prop :=
  startLine f <= l /\ l <= endLine f.

(** The enclosing definition of a line: the first record, in the order of
    the list, whose range holds it. *)
Definition enclosing (definitions : list JQFunction) (l : nat)
    (f : JQFunction) : Prop :=
  exists i, definitions !! i = Some f /\ holdsLine f l /\
            forall j g, j < i -> definitions !! j = Some g -> ~ holdsLine g l.

Definition isParameterHere (definitions : list JQFunction) (l : nat)
    (word : str) : Prop :=
  exists f, enclosing definitions l f /\ word ∈ paramNames f.

Definition isUserFunction (definitions : list JQFunction) (word : str)
  : Prop :=
  exists f, f ∈ definitions /\ name f = word.

Definition isParameterSomewhere (definitions : list JQFunction) (word : str)
  : Prop :=
  exists f, f ∈ definitions /\ word ∈ paramNames f.

(** The classification priority as the specification words it: the first
    rule that applies decides. *)
Inductive classifiedAs (BUILTINS : list str) (definitions : list JQFunction)
    (l : nat) (word : str) : option category -> Prop :=
| rule_parameter :
    isParameterHere definitions l word ->
    classifiedAs BUILTINS definitions l word (Some parameter)
| rule_function_user :
    ~ isParameterHere definitions l word ->
    isUserFunction definitions word ->
    classifiedAs BUILTINS definitions l word (Some function_user)
| rule_function_builtin :
    ~ isParameterHere definitions l word ->
    ~ isUserFunction definitions word ->
    word ∈ BUILTINS -> ~ isParameterSomewhere definitions word ->
    classifiedAs BUILTINS definitions l word (Some function_builtin)
| rule_none :
    ~ isParameterHere definitions l word ->
    ~ isUserFunction definitions word ->
    ~ (word ∈ BUILTINS /\ ~ isParameterSomewhere definitions word) ->
    classifiedAs BUILTINS definitions l word None.

(** ** The first version of the parser

    [extension.ts] also holds the earlier [JQParser.parse]: one [args]
    list, an unanchored header pattern, and an extent that ends before the
    next line that starts with [def]. *)

Module V1.

Record JQFunction : Type := {
  name : str;
  args : list str;
  startLine : nat;
  endLine : nat
}.

(** [def \s+ ( [a-zA-Z0-9_]+ ) (?: \( ( [^)]+ ) \) )? \s* :] *)
Definition defRegex : regex :=
  seqs [ Lit "def";
         Plus isSpace;
         Group 1 (Plus isIdentChar);
         Opt (seqs [ Class (isChar LPAREN);
                     Group 2 (Plus notRParen);
                     Class (isChar RPAREN) ]);
         Star isSpace;
         Class (isChar COLON) ].

(** [^ \s* def \s+] *)
Definition defStartRegex : regex :=
  seqs [ Star isSpace; Lit "def"; Plus isSpace ].

(** [exec] of an unanchored pattern without the [g] flag: the match at the
    leftmost start that has one. *)
Fixpoint exec (r : regex) (s : str) : option matched :=
  match matchAt r s with
  | Some m => Some m
  | None =>
      match s with
      | [] => None
      | _ :: s' => exec r s'
      end
  end.

(** The inner loop from [j] on, [ls] being [lines[j..]]. *)
Fixpoint findNextDef (j : nat) (ls : list str) (endLine : nat) : nat :=
  match ls with
  | [] => endLine
  | l :: ls' =>
      if test defStartRegex l then j - 1
      else findNextDef (S j) ls' endLine
  end.

(** [match[2] ? match[2].split(';').map(s => s.trim()) : []] *)
Definition rawArgsOf (m : matched) : list str :=
  match getCapture 2 (m_caps m) with
  | Some a => if truthy a then map trim (split_on SEMI a) else []
  | None => []
  end.

(** The loop over [lines] from index [i] on, [ls] being [lines[i..]] and
    [n] the number of lines. *)
Fixpoint parseFrom (n i : nat) (ls : list str) : outcome (list JQFunction) :=
  match ls with
  | [] => Ok []
  | l :: rest =>
      match exec defRegex l with
      | Some m =>
          funcName ← group 1 m;
          let rawArgs := rawArgsOf m in
          let endLine := n - 1 in
          let endLine := findNextDef (i + 1) rest endLine in
          more ← parseFrom n (S i) rest;
          Ok ({| name := funcName; args := rawArgs;
                 startLine := i; endLine := endLine |} :: more)
      | None => parseFrom n (S i) rest
      end
  end.

Definition parse (text : str) : outcome (list JQFunction) :=
  let lines := split_lines text in
  parseFrom (length lines) 0 lines.

End V1.

(** ** Notions of the further statements *)

(** The line starts, after white space, with [def] and a white space. *)
Definition startsDefinition (l : str) : bool :=
  match stripPrefix (js "def") (dropWhile isSpace l) with
  | Some (c :: _) => isSpace c
  | _ => false
  end.

(** The numbers of the capture groups of a pattern. *)
Fixpoint groupsOf (r : regex) : list nat :=
  match r with
  | Eps => []
  | Class _ => []
  | Seq r1 r2 => groupsOf r1 ++ groupsOf r2
  | Star _ => []
  | Opt r' => groupsOf r'
  | Group n r' => n :: groupsOf r'
  end.

(** A piece as [trim] leaves it: no white space at either end. *)
Definition isTrimmed (a : str) : Prop := trim a = a.

(** What the token loop does to the text from index [idx] on: it passes
    over units that cannot start an identifier, takes an identifier up to
    the first unit that cannot continue it, and goes on behind it. *)
Inductive tokenization : nat -> str -> list (nat * str) -> Prop :=
| tokenization_end (idx : nat) (rest : str) :
    forallb (fun c => negb (isIdentStart c)) rest = true ->
    tokenization idx rest []
| tokenization_token (idx : nat) (skip w rest : str)
    (more : list (nat * str)) :
    forallb (fun c => negb (isIdentStart c)) skip = true ->
    isIdentifier w = true ->
    takeWhile isIdentChar rest = [] ->
    tokenization (idx + length skip + length w) rest more ->
    tokenization idx (skip ++ w ++ rest)
      ((idx + length skip, w) :: more).

(** A text that holds a definition with a value parameter. *)
Definition dollar_text : str := js "def f($a; b): $".

Definition dollar_f : JQFunction :=
  {| name := js "f"; valueArgs := [js "$a"]; filterArgs := [js "b"];
     startLine := 0; endLine := 0 |}.

(** Two empty lines before a comment line. *)
Definition empty_line_text : str := [LF; LF] ++ js "# note".

(** Two definitions, each with a body line, for the first parser. *)
Definition v1_f : V1.JQFunction :=
  {| V1.name := js "foo"; V1.args := [js "$a"; js "b"];
     V1.startLine := 0; V1.endLine := 1 |}.

Definition v1_g : V1.JQFunction :=
  {| V1.name := js "bar"; V1.args := [];
     V1.startLine := 2; V1.endLine := 3 |}.

(** The placeholders of a snippet as the template literal of the source
    prints them: numbered from [n], named by the parameter without its
    sigil, separated by a semicolon and a blank. *)
Fixpoint placeholdersFrom (n : nat) (params : list str) : str :=
  match params with
  | [] => []
  | p :: rest =>
      js "${" ++ decimal n ++ js ":"
      ++ (if startsWith DOLLAR p then drop 1 p else p) ++ js "}"
      ++ match rest with
         | [] => []
         | _ :: _ => js "; " ++ placeholdersFrom (S n) rest
         end
  end.

(** The call a function item inserts: the name and, in parentheses, the
    placeholders of the value parameters, then of the filter parameters. *)
Definition snippetText (f : JQFunction) : str :=
  name f ++ js "(" ++ placeholdersFrom 1 (valueArgs f ++ filterArgs f)
  ++ js ")".

(** The span the token loop pushes for a word at an offset. *)
Definition spanAt (text : str) (offset : nat) (word : str) (c : category)
  : ClassifiedSpan :=
  {| span_start := positionAt text offset;
     span_length := length word;
     span_category := c |}.

(** The list the provider returns when no turn of the value-parameter
    loop throws. *)
Definition completionsOf (B : list str) (fs : list JQFunction)
    (currentFunc : option JQFunction) (rangeText : str)
  : list CompletionItem :=
  from_option (fun cf => map (valueParamItem cf rangeText) (valueArgs cf))
    [] currentFunc
  ++ from_option (fun cf => map (filterParamItem cf) (filterArgs cf))
       [] currentFunc
  ++ map functionItem (List.filter (otherName currentFunc) fs)
  ++ map (fun b => newCompletionItem b KindFunction) B.

(** ** Character classes *)

Ltac charclass :=
  intros;
  repeat match goal with
         | |- _ = false => apply not_true_iff_false; intro
         end;
  unfold isSpace, isIdentStart, isIdentChar, notRParen, notLF, isChar,
    inRange, LF, CR, HASH, DOLLAR, LPAREN, RPAREN, COLON, SEMI in *;
  repeat match goal with
         | H : _ = true |- _ =>
             rewrite ?orb_true_iff, ?andb_true_iff, ?negb_true_iff,
               ?N.leb_le, ?N.eqb_eq, ?N.eqb_neq in H
         | H : _ = false |- _ =>
             apply not_true_iff_false in H;
             rewrite ?orb_true_iff, ?andb_true_iff, ?negb_true_iff,
               ?N.leb_le, ?N.eqb_eq, ?N.eqb_neq in H
         end;
  rewrite ?orb_true_iff, ?andb_true_iff, ?negb_true_iff,
    ?N.leb_le, ?N.eqb_eq, ?N.eqb_neq;
  lia.

Lemma space_not_identStart c : isSpace c = true -> isIdentStart c = false.
Proof. charclass. Qed.

Lemma space_not_char c d :
  isSpace c = true -> isSpace d = false -> isChar d c = false.
Proof.
  intros Hc Hd. unfold isChar. apply N.eqb_neq. intros ->. congruence.
Qed.

Lemma identChar_not_space c : isIdentChar c = true -> isSpace c = false.
Proof. charclass. Qed.

Lemma identChar_not_lparen c : isIdentChar c = true -> isChar LPAREN c = false.
Proof. charclass. Qed.

Lemma identChar_not_colon c : isIdentChar c = true -> isChar COLON c = false.
Proof. charclass. Qed.

Lemma identChar_notLF c : isIdentChar c = true -> notLF c = true.
Proof. charclass. Qed.

Lemma identStart_identChar c : isIdentStart c = true -> isIdentChar c = true.
Proof. charclass. Qed.

Lemma notRParen_not_rparen c : notRParen c = true -> isChar RPAREN c = false.
Proof. charclass. Qed.

Lemma isChar_eq d c : isChar d c = true <-> c = d.
Proof. unfold isChar. apply N.eqb_eq. Qed.

(** ** The matcher on the patterns of the source *)

Lemma takeWhile_dropWhile p s : takeWhile p s ++ dropWhile p s = s.
Proof.
  induction s as [|c s IH]; simpl; [done|].
  destruct (p c); simpl; [by rewrite IH|done].
Qed.

Lemma length_takeWhile_dropWhile p s :
  length (takeWhile p s) + length (dropWhile p s) = length s.
Proof. by rewrite <- length_app, takeWhile_dropWhile. Qed.

Lemma take_takeWhile p s :
  take (length s - length (dropWhile p s)) s = takeWhile p s.
Proof.
  pose proof (length_takeWhile_dropWhile p s) as Hlen.
  replace (length s - length (dropWhile p s)) with (length (takeWhile p s))
    by lia.
  rewrite <- (takeWhile_dropWhile p s) at 2.
  by rewrite take_app_length.
Qed.

Lemma take_cons_takeWhile p c s :
  take (length (c :: s) - length (dropWhile p s)) (c :: s)
  = c :: takeWhile p s.
Proof.
  pose proof (length_takeWhile_dropWhile p s) as Hlen. simpl length.
  replace (S (length s) - length (dropWhile p s))
    with (S (length s - length (dropWhile p s))) by lia.
  simpl. by rewrite take_takeWhile.
Qed.

Lemma starK_some p k s r :
  k (dropWhile p s) = Some r -> starK p k s = Some r.
Proof.
  induction s as [|c s IH]; simpl; [done|].
  destruct (p c); [|done]. intros H. by rewrite (IH H).
Qed.

Lemma starK_greedy p k s :
  (forall c s', p c = true -> k (c :: s') = None) ->
  starK p k s = k (dropWhile p s).
Proof.
  intros Hk. induction s as [|c s IH]; simpl; [done|].
  destruct (p c) eqn:Hc; [|done].
  rewrite IH. destruct (k (dropWhile p s)); [done|]. by apply Hk.
Qed.

Lemma rmatch_lit l s caps k :
  rmatch (seqs (map (fun c => Class (isChar c)) l)) s caps k
  = match stripPrefix l s with
    | Some rest => k rest caps
    | None => None
    end.
Proof.
  revert s. induction l as [|c l IH]; intros s; simpl.
  - by destruct s.
  - destruct s as [|x s]; [done|]. destruct (isChar c x); [apply IH|done].
Qed.

Lemma rmatch_seqs_cons r rs s caps k :
  rmatch (seqs (r :: rs)) s caps k
  = rmatch r s caps (fun s1 c1 => rmatch (seqs rs) s1 c1 k).
Proof. reflexivity. Qed.

Lemma rmatch_seqs_nil s caps k : rmatch (seqs []) s caps k = k s caps.
Proof. reflexivity. Qed.

Lemma rmatch_reTail s caps : rmatch (seqs reTail) s caps accept = tailColon s caps.
Proof.
  unfold reTail. rewrite rmatch_seqs_cons. cbn [rmatch].
  rewrite starK_greedy.
  - rewrite rmatch_seqs_cons. unfold tailColon. cbn [rmatch].
    destruct (dropWhile isSpace s) as [|c t]; [done|].
    by destruct (isChar COLON c).
  - intros c s' Hc. rewrite rmatch_seqs_cons. cbn [rmatch].
    by rewrite (space_not_char c COLON).
Qed.

Lemma tailColon_identChar c s caps :
  isIdentChar c = true -> tailColon (c :: s) caps = None.
Proof.
  intros Hc. unfold tailColon. simpl.
  by rewrite (identChar_not_space c Hc), (identChar_not_colon c Hc).
Qed.

Lemma rmatch_reArgs s caps :
  rmatch reArgs s caps (fun s1 c1 => rmatch (seqs reTail) s1 c1 accept)
  = argsGroup s caps.
Proof.
  unfold reArgs, argsGroup. rewrite rmatch_seqs_cons. cbn [rmatch].
  destruct s as [|x s4]; [done|]. destruct (isChar LPAREN x); [|done].
  rewrite rmatch_seqs_cons. cbn [rmatch].
  rewrite starK_greedy, take_takeWhile.
  - rewrite rmatch_seqs_cons. cbn [rmatch].
    destruct (dropWhile notRParen s4) as [|y s6]; [done|].
    destruct (isChar RPAREN y); [|done].
    rewrite rmatch_seqs_nil. apply rmatch_reTail.
  - intros y s' Hy. rewrite rmatch_seqs_cons. cbn [rmatch].
    by rewrite (notRParen_not_rparen y Hy).
Qed.

Lemma rmatch_optArgs s caps :
  rmatch (seqs (Opt reArgs :: reTail)) s caps accept
  = match argsGroup s caps with
    | Some m => Some m
    | None => tailColon s caps
    end.
Proof.
  rewrite rmatch_seqs_cons. cbn [rmatch].
  by rewrite rmatch_reArgs, rmatch_reTail.
Qed.

Lemma rmatch_optArgs_identChar c s caps :
  isIdentChar c = true ->
  rmatch (seqs (Opt reArgs :: reTail)) (c :: s) caps accept = None.
Proof.
  intros Hc. rewrite rmatch_optArgs, tailColon_identChar by done.
  unfold argsGroup. by rewrite (identChar_not_lparen c Hc).
Qed.

Lemma rmatch_name s caps :
  rmatch (seqs (reName :: Opt reArgs :: reTail)) s caps accept
  = match s with
    | c2 :: s2 =>
        if isIdentStart c2 then
          let caps2 := (2, c2 :: takeWhile isIdentChar s2) :: caps in
          let s3 := dropWhile isIdentChar s2 in
          match argsGroup s3 caps2 with
          | Some m => Some m
          | None => tailColon s3 caps2
          end
        else None
    | [] => None
    end.
Proof.
  rewrite rmatch_seqs_cons. unfold reName. cbn [rmatch].
  destruct s as [|c2 s2]; [done|]. destruct (isIdentStart c2); [|done].
  rewrite starK_greedy, take_cons_takeWhile.
  - apply rmatch_optArgs.
  - intros x s' Hx. by apply rmatch_optArgs_identChar.
Qed.

Lemma matchAt_defRegex l : matchAt defRegex l = headerMatch l.
Proof.
  unfold matchAt, defRegex, headerMatch.
  rewrite rmatch_seqs_cons. cbn [rmatch].
  rewrite starK_greedy, take_takeWhile.
  2:{ intros c s' Hc. rewrite rmatch_seqs_cons. unfold Lit.
      rewrite rmatch_lit. change (js "def") with [100; 101; 102]%N.
      cbn [stripPrefix]. by rewrite (space_not_char c 100%N). }
  rewrite rmatch_seqs_cons. unfold Lit. rewrite rmatch_lit.
  destruct (stripPrefix (js "def") (dropWhile isSpace l)) as [[|c s1]|];
    [done| |done].
  rewrite rmatch_seqs_cons. cbn [rmatch Plus].
  destruct (isSpace c); [|done].
  rewrite starK_greedy.
  - apply (rmatch_name (dropWhile isSpace s1)).
  - intros x s' Hx.
    rewrite (rmatch_name (x :: s')). by rewrite (space_not_identStart x).
Qed.

(** ** Lists of code units *)

Lemma dropWhile_app_all p a b :
  forallb p a = true -> dropWhile p (a ++ b) = dropWhile p b.
Proof.
  induction a as [|c a IH]; simpl; [done|].
  intros [Hc Ha]%andb_true_iff. rewrite Hc. auto.
Qed.

Lemma takeWhile_app_all p a b :
  forallb p a = true -> takeWhile p (a ++ b) = a ++ takeWhile p b.
Proof.
  induction a as [|c a IH]; simpl; [done|].
  intros [Hc Ha]%andb_true_iff. rewrite Hc. by rewrite IH.
Qed.

Lemma forallb_takeWhile p s : forallb p (takeWhile p s) = true.
Proof.
  induction s as [|c s IH]; simpl; [done|].
  destruct (p c) eqn:Hc; simpl; [by rewrite Hc|done].
Qed.

Lemma dropWhile_head p s c t : dropWhile p s = c :: t -> p c = false.
Proof.
  induction s as [|x s IH]; simpl; [done|].
  destruct (p x) eqn:Hx; [done|]. by intros [= <- <-].
Qed.

Lemma lineIndent_leadingSpace l : lineIndent l = leadingSpace l.
Proof.
  unfold lineIndent, leadingSpace, trimStart.
  pose proof (length_takeWhile_dropWhile isSpace l). lia.
Qed.

(** ** The first pass *)

Lemma headerMatch_caps l m :
  headerMatch l = Some m ->
  exists nm raw,
    isIdentifier nm = true /\
    m_caps m = from_option (fun a => [(3, a)]) [] raw
               ++ [(2, nm); (1, takeWhile isSpace l)].
Proof.
  unfold headerMatch.
  destruct (stripPrefix _ _) as [[|c s1]|]; [done| |done].
  destruct (isSpace c); [|done].
  destruct (dropWhile isSpace s1) as [|c2 s2]; [done|].
  destruct (isIdentStart c2) eqn:Hc2; [|done].
  set (nm := c2 :: takeWhile isIdentChar s2).
  assert (Hnm : isIdentifier nm = true).
  { simpl. by rewrite Hc2, forallb_takeWhile. }
  assert (Htail : forall s caps m, tailColon s caps = Some m -> m_caps m = caps).
  { intros s caps m'. unfold tailColon.
    destruct (dropWhile isSpace s) as [|x t]; [done|].
    destruct (isChar COLON x); [|done]. by intros [= <-]. }
  destruct (argsGroup _ _) as [m'|] eqn:Hargs.
  - intros [= <-]. unfold argsGroup in Hargs.
    destruct (dropWhile isIdentChar s2) as [|x s4]; [done|].
    destruct (isChar LPAREN x); [|done].
    destruct (dropWhile notRParen s4) as [|y s6]; [done|].
    destruct (isChar RPAREN y); [|done].
    apply Htail in Hargs. exists nm, (Some (takeWhile notRParen s4)).
    by rewrite Hargs.
  - intros H%Htail. exists nm, None. by rewrite H.
Qed.

Lemma defOfMatch_ok i l m :
  matchAt defRegex l = Some m ->
  exists d, defOfMatch i m = Ok d /\ def_startLine d = i /\
            def_indent d = leadingSpace l.
Proof.
  rewrite matchAt_defRegex. intros (nm & raw & _ & Hcaps)%headerMatch_caps.
  unfold defOfMatch, group. rewrite Hcaps.
  destruct raw; simpl; eauto.
Qed.

Lemma collectDefs_total i lines : exists defs, collectDefs i lines = Ok defs.
Proof.
  revert i. induction lines as [|l rest IH]; intros i; simpl; [by eexists|].
  destruct (matchAt defRegex l) as [m|] eqn:Hm; [|apply IH].
  destruct (defOfMatch_ok i l m Hm) as (d & -> & _).
  destruct (IH (S i)) as (defs & ->). simpl. by eexists.
Qed.

Lemma parse_total text : exists fs, parse text = Ok fs.
Proof.
  unfold parse. destruct (collectDefs_total 0 (split_lines text)) as (defs & ->).
  simpl. by eexists.
Qed.

(** Every entry of [defs] comes from a line that matches the pattern. *)
Lemma collectDefs_elem i lines defs d :
  collectDefs i lines = Ok defs -> d ∈ defs ->
  exists k l m, def_startLine d = i + k /\ lines !! k = Some l /\
                matchAt defRegex l = Some m /\ defOfMatch (i + k) m = Ok d.
Proof.
  revert i defs. induction lines as [|l rest IH]; intros i defs; simpl.
  { intros [= <-] Hd. by apply elem_of_nil in Hd. }
  destruct (matchAt defRegex l) as [m|] eqn:Hm.
  - destruct (defOfMatch_ok i l m Hm) as (d0 & Hd0 & Hs & _). rewrite Hd0.
    destruct (collectDefs (S i) rest) as [defs'| | |] eqn:Hrest; simpl; try done.
    intros [= <-] [->|Hd]%elem_of_cons.
    + exists 0, l, m. rewrite Nat.add_0_r. done.
    + destruct (IH _ _ Hrest Hd) as (k & l' & m' & ? & ? & ? & ?).
      exists (S k), l', m'. rewrite Nat.add_succ_r. done.
  - intros Hrest Hd.
    destruct (IH _ _ Hrest Hd) as (k & l' & m' & ? & ? & ? & ?).
    exists (S k), l', m'. rewrite Nat.add_succ_r. done.
Qed.

(** The entries of [defs] for one line: one if the line matches, none
    otherwise. *)
Lemma collectDefs_at i lines defs k :
  collectDefs i lines = Ok defs ->
  List.filter (fun d => def_startLine d =? i + k) defs
  = match lines !! k with
    | Some l =>
        match matchAt defRegex l with
        | Some m =>
            match defOfMatch (i + k) m with Ok d => [d] | _ => [] end
        | None => []
        end
    | None => []
    end.
Proof.
  revert i defs k. induction lines as [|l rest IH]; intros i defs k; simpl.
  { intros [= <-]. done. }
  assert (Hlater : forall defs', collectDefs (S i) rest = Ok defs' ->
            List.filter (fun d => def_startLine d =? i + 0) defs' = []).
  { intros defs' Hrest.
    destruct (List.filter _ defs') as [|d ds] eqn:Hf; [done|].
    assert (Hd : In d (List.filter (fun d => def_startLine d =? i + 0) defs'))
      by (rewrite Hf; by left).
    apply filter_In in Hd as [Hd Heq%Nat.eqb_eq].
    apply list_elem_of_In in Hd.
    destruct (collectDefs_elem _ _ _ _ Hrest Hd) as (k' & ? & ? & ? & _). lia. }
  destruct (matchAt defRegex l) as [m|] eqn:Hm.
  - destruct (defOfMatch_ok i l m Hm) as (d0 & Hd0 & Hs & _). rewrite Hd0.
    destruct (collectDefs (S i) rest) as [defs'| | |] eqn:Hrest; simpl; try done.
    intros [= <-]. destruct k as [|k]; simpl.
    + rewrite Hm, Nat.add_0_r, Hd0, Hs, Nat.eqb_refl.
      f_equal. rewrite <- (Hlater defs' eq_refl). by rewrite Nat.add_0_r.
    + rewrite Hs. replace (i =? i + S k) with false
        by (symmetry; apply Nat.eqb_neq; lia).
      rewrite Nat.add_succ_r. apply (IH (S i) _ k Hrest).
  - intros Hrest. destruct k as [|k]; simpl.
    + rewrite Hm. by apply Hlater.
    + rewrite Nat.add_succ_r. apply (IH (S i) _ k Hrest).
Qed.

(** ** The second pass *)

Lemma cons_first_nonempty c ls : cons_first c ls <> [].
Proof. by destruct ls. Qed.

Lemma split_lines_nonempty s : split_lines s <> [].
Proof.
  induction s as [|c s IH]; simpl; [done|].
  destruct (c =? LF)%N; [done|].
  destruct ((c =? CR)%N && startsWithLF s); [done|apply cons_first_nonempty].
Qed.

Lemma findEnd_step N j l ls dflt :
  findEnd N j (l :: ls) dflt
  = if closesExtent N l then j - 1 else findEnd N (S j) ls dflt.
Proof.
  simpl. unfold closesExtent, isBlankLine, isCommentLine.
  rewrite lineIndent_leadingSpace.
  destruct (negb (truthy (trim l)) || startsWith HASH (trim l)); simpl; [done|].
  by destruct (leadingSpace l <=? N).
Qed.

Lemma findEnd_cases N j ls dflt :
  (exists k l, ls !! k = Some l /\ closesExtent N l = true /\
     (forall k' l', k' < k -> ls !! k' = Some l' -> closesExtent N l' = false) /\
     findEnd N j ls dflt = j + k - 1)
  \/ ((forall k l, ls !! k = Some l -> closesExtent N l = false) /\
      findEnd N j ls dflt = dflt).
Proof.
  revert j. induction ls as [|l ls IH]; intros j.
  { right. split; [|done]. intros k l Hk. by rewrite lookup_nil in Hk. }
  rewrite findEnd_step. destruct (closesExtent N l) eqn:Hl.
  - left. exists 0, l. repeat split; [done| |f_equal; lia]. intros; lia.
  - destruct (IH (S j)) as [(k & l0 & Hk & Hc & Hbefore & Hend)|[Hnone Hend]].
    + left. exists (S k), l0. repeat split; [done|done| |lia].
      intros [|k'] l' Hlt; simpl; [by intros [= <-]|].
      apply Hbefore. lia.
    + right. split; [|done]. intros [|k] l'; simpl; [by intros [= <-]|].
      apply Hnone.
Qed.

(** The extent of one definition, in terms of the lines of the document. *)
Lemma closeDef_extent (lines : list str) (d : JQDef) (hdr : str) :
  lines !! def_startLine d = Some hdr ->
  let r := closeDef lines d in
  let N := def_indent d in
  (exists j l, startLine r < j /\ lines !! j = Some l /\
     closesExtent N l = true /\
     (forall k l', startLine r < k < j -> lines !! k = Some l' ->
                   closesExtent N l' = false) /\
     S (endLine r) = j)
  \/ ((forall k l', startLine r < k -> lines !! k = Some l' ->
                    closesExtent N l' = false) /\
      S (endLine r) = length lines).
Proof.
  intros Hhdr r N. unfold r, closeDef. cbn [startLine endLine].
  apply lookup_lt_Some in Hhdr as Hlen.
  pose proof (split_lines_nonempty) as _.
  destruct (findEnd_cases N (def_startLine d + 1)
              (drop (def_startLine d + 1) lines) (length lines - 1))
    as [(k & l & Hk & Hc & Hbefore & Hend)|[Hnone Hend]];
    fold N; rewrite Hend; clear Hend; set (H := def_startLine d) in *.
  - left. rewrite lookup_drop in Hk. exists (H + 1 + k), l.
    repeat split; [lia|done|done| |lia].
    intros k' l' [Hlo Hhi] Hk'. apply (Hbefore (k' - (H + 1))); [lia|].
    rewrite lookup_drop. by replace (H + 1 + (k' - (H + 1))) with k' by lia.
  - right. split; [|lia]. intros k l' Hlo Hk.
    apply (Hnone (k - (H + 1))). rewrite lookup_drop.
    by replace (H + 1 + (k - (H + 1))) with k by lia.
Qed.

Lemma parse_elem text fs r :
  parse text = Ok fs -> r ∈ fs ->
  exists d hdr m,
    r = closeDef (split_lines text) d /\
    split_lines text !! def_startLine d = Some hdr /\
    matchAt defRegex hdr = Some m /\
    defOfMatch (def_startLine d) m = Ok d /\
    def_indent d = leadingSpace hdr.
Proof.
  unfold parse. intros Hp Hr.
  destruct (collectDefs 0 (split_lines text)) as [defs| | |] eqn:Hdefs;
    simpl in Hp; try done.
  injection Hp as <-. apply list_elem_of_fmap in Hr as (d & -> & Hd).
  destruct (collectDefs_elem _ _ _ _ Hdefs Hd) as (k & l & m & Hs & Hl & Hm & Hd').
  simpl in Hs, Hd'. subst k. exists d, l, m. repeat split; try done.
  destruct (defOfMatch_ok (def_startLine d) l m Hm) as (d' & Hd'' & _ & Hi).
  congruence.
Qed.

(** ** Extents *)

(** C1: the extent of every recovered record ends one line before the
    first later line that is neither blank nor a comment and whose
    leading white space is no longer than that of the header line, and at
    the last line of the document when there is no such line. *)
Theorem C1_endLine_by_indentation (text : str) (fs : list JQFunction)
    (r : JQFunction) :
  parse text = Ok fs -> r ∈ fs ->
  let lines := split_lines text in
  exists hdr,
    lines !! startLine r = Some hdr /\ is_Some (matchAt defRegex hdr) /\
    let N := leadingSpace hdr in
    ((exists j l, startLine r < j /\ lines !! j = Some l /\
        closesExtent N l = true /\
        (forall k l', startLine r < k < j -> lines !! k = Some l' ->
                      closesExtent N l' = false) /\
        S (endLine r) = j)
     \/ ((forall k l', startLine r < k -> lines !! k = Some l' ->
                       closesExtent N l' = false) /\
         S (endLine r) = length lines)).
Proof.
  intros Hp Hr lines.
  destruct (parse_elem _ _ _ Hp Hr) as (d & hdr & m & -> & Hhdr & Hm & _ & Hi).
  exists hdr. split; [done|]. split; [by eexists|].
  cbv zeta. rewrite <- Hi. apply (closeDef_extent _ _ _ Hhdr).
Qed.

(** C7: in every recovered record the start line is not after the end
    line, the end line is a line of the document, and it is the last line
    when no later line closes the extent. *)
Theorem C7_extent_well_formed (text : str) (fs : list JQFunction)
    (r : JQFunction) :
  parse text = Ok fs -> r ∈ fs ->
  let lines := split_lines text in
  startLine r <= endLine r /\ endLine r < length lines /\
  exists hdr, lines !! startLine r = Some hdr /\
    ((forall k l, startLine r < k -> lines !! k = Some l ->
                  closesExtent (leadingSpace hdr) l = false) ->
     endLine r = length lines - 1).
Proof.
  intros Hp Hr lines. subst lines.
  destruct (parse_elem _ _ _ Hp Hr) as (d & hdr & m & -> & Hhdr & Hm & _ & Hi).
  apply lookup_lt_Some in Hhdr as Hlen.
  destruct (closeDef_extent _ _ _ Hhdr)
    as [(j & l & Hj & Hl & Hc & _ & Hend)|[_ Hend]].
  - apply lookup_lt_Some in Hl as Hjlen.
    change (startLine (closeDef _ d)) with (def_startLine d) in *.
    repeat split; [lia|lia|]. exists hdr. split; [done|].
    intros Hnone. rewrite <- Hi in Hnone.
    specialize (Hnone j l Hj Hl). congruence.
  - change (startLine (closeDef _ d)) with (def_startLine d) in *.
    repeat split; [lia|lia|].
    exists hdr. split; [done|]. intros _. lia.
Qed.

(** ** Headers *)

Lemma dropWhile_stop p c s : p c = false -> dropWhile p (c :: s) = c :: s.
Proof. intros H. simpl. by rewrite H. Qed.

Lemma takeWhile_stop p c s : p c = false -> takeWhile p (c :: s) = [].
Proof. intros H. simpl. by rewrite H. Qed.

Lemma dropWhile_of_takeWhile_nil p s : takeWhile p s = [] -> dropWhile p s = s.
Proof. intros H. by rewrite <- (takeWhile_dropWhile p s) at 2; rewrite H. Qed.

Lemma headerMatch_prefix ws ws1 nm rest :
  forallb isSpace ws = true -> ws1 <> [] -> forallb isSpace ws1 = true ->
  isIdentifier nm = true -> takeWhile isIdentChar rest = [] ->
  headerMatch (ws ++ js "def" ++ ws1 ++ nm ++ rest)
  = let caps2 := [(2, nm); (1, ws)] in
    match argsGroup rest caps2 with
    | Some m => Some m
    | None => tailColon rest caps2
    end.
Proof.
  intros Hws Hne Hws1 Hnm Hrest. unfold headerMatch.
  rewrite dropWhile_app_all, takeWhile_app_all by done.
  change (js "def") with [100; 101; 102]%N. cbn [app].
  rewrite takeWhile_stop, dropWhile_stop, app_nil_r by done.
  cbn [stripPrefix]. unfold isChar at 1 2 3. rewrite !N.eqb_refl.
  destruct ws1 as [|c ws1]; [done|]. cbn [app].
  apply andb_true_iff in Hws1 as [-> Hws1].
  destruct nm as [|c2 nm]; [done|]. apply andb_true_iff in Hnm as [Hc2 Hnm].
  rewrite dropWhile_app_all by done. cbn [app].
  rewrite dropWhile_stop.
  2:{ destruct (isSpace c2) eqn:Hs; [|done].
      apply space_not_identStart in Hs. congruence. }
  rewrite Hc2. rewrite dropWhile_app_all, takeWhile_app_all by done.
  rewrite Hrest, app_nil_r, (dropWhile_of_takeWhile_nil _ _ Hrest). done.
Qed.

Lemma tailColon_spaces ws2 tail caps :
  forallb isSpace ws2 = true ->
  tailColon (ws2 ++ COLON :: tail) caps
  = Some {| m_rest := tail; m_caps := caps |}.
Proof.
  intros Hws2. unfold tailColon. rewrite dropWhile_app_all by done.
  by rewrite dropWhile_stop.
Qed.

Lemma spaces_colon_not_ident ws2 tail :
  forallb isSpace ws2 = true ->
  takeWhile isIdentChar (ws2 ++ COLON :: tail) = [].
Proof.
  intros Hws2. destruct ws2 as [|c ws2]; [done|]. cbn [app].
  apply andb_true_iff in Hws2 as [Hc _]. apply takeWhile_stop.
  destruct (isIdentChar c) eqn:Hi; [|done].
  apply identChar_not_space in Hi. congruence.
Qed.

Lemma headerMatch_headerLine ws ws1 nm raw ws2 tail :
  forallb isSpace ws = true -> ws1 <> [] -> forallb isSpace ws1 = true ->
  isIdentifier nm = true -> forallb notRParen (default [] raw) = true ->
  forallb isSpace ws2 = true ->
  headerMatch (headerLine ws ws1 nm raw ws2 tail)
  = Some {| m_rest := tail;
            m_caps := from_option (fun a => [(3, a)]) [] raw
                      ++ [(2, nm); (1, ws)] |}.
Proof.
  intros Hws Hne Hws1 Hnm Hraw Hws2. unfold headerLine.
  rewrite headerMatch_prefix; try done.
  - destruct raw as [a|]; cbn [parenthesized from_option app default] in *.
    + unfold argsGroup. rewrite <- app_assoc. cbn [app].
      rewrite dropWhile_app_all, takeWhile_app_all by done.
      rewrite dropWhile_stop, takeWhile_stop, app_nil_r by done.
      unfold isChar at 1 2. rewrite !N.eqb_refl.
      by rewrite tailColon_spaces.
    + rewrite tailColon_spaces by done.
      destruct ws2 as [|c ws2]; [done|]. cbn [app argsGroup].
      apply andb_true_iff in Hws2 as [Hc _].
      by rewrite (space_not_char c LPAREN).
  - destruct raw as [a|]; [done|]. by apply spaces_colon_not_ident.
Qed.

Lemma filter_closeDef lines defs i :
  List.filter (fun r => startLine r =? i) (map (closeDef lines) defs)
  = map (closeDef lines) (List.filter (fun d => def_startLine d =? i) defs).
Proof.
  induction defs as [|d defs IH]; simpl; [done|].
  destruct (def_startLine d =? i); simpl; by rewrite IH.
Qed.

(** The records of one line. *)
Lemma parse_at text fs i :
  parse text = Ok fs ->
  List.filter (fun r => startLine r =? i) fs
  = match split_lines text !! i with
    | Some l =>
        match matchAt defRegex l with
        | Some m =>
            match defOfMatch i m with
            | Ok d => [closeDef (split_lines text) d]
            | _ => []
            end
        | None => []
        end
    | None => []
    end.
Proof.
  unfold parse. intros Hp.
  destruct (collectDefs 0 (split_lines text)) as [defs| | |] eqn:Hdefs;
    simpl in Hp; try done.
  injection Hp as <-. rewrite filter_closeDef.
  pose proof (collectDefs_at 0 _ _ i Hdefs) as Hat. simpl in Hat.
  rewrite Hat.
  destruct (split_lines text !! i) as [l|]; [|done].
  destruct (matchAt defRegex l) as [m|]; [|done].
  by destruct (defOfMatch i m).
Qed.

Lemma stripPrefix_Some pre s r : stripPrefix pre s = Some r -> s = pre ++ r.
Proof.
  revert s. induction pre as [|c pre IH]; intros s; simpl.
  { by intros [= <-]. }
  destruct s as [|x s]; [done|]. destruct (isChar c x) eqn:Hx; [|done].
  apply isChar_eq in Hx as ->. intros ->%IH. done.
Qed.

Lemma tailColon_shape s caps m :
  tailColon s caps = Some m ->
  exists ws2 tail, s = ws2 ++ COLON :: tail /\ forallb isSpace ws2 = true.
Proof.
  unfold tailColon. destruct (dropWhile isSpace s) as [|c t] eqn:Hd; [done|].
  destruct (isChar COLON c) eqn:Hc; [|done]. intros _.
  apply isChar_eq in Hc as ->. exists (takeWhile isSpace s), t.
  by rewrite <- Hd, takeWhile_dropWhile, forallb_takeWhile.
Qed.

(** Every line the pattern accepts is a header. *)
Lemma headerMatch_shape l m :
  headerMatch l = Some m ->
  exists ws ws1 nm raw ws2 tail,
    l = headerLine ws ws1 nm raw ws2 tail /\ headerParts ws ws1 nm raw ws2.
Proof.
  unfold headerMatch, headerLine, headerParts.
  destruct (stripPrefix _ _) as [[|c s1]|] eqn:Hpre; [done| |done].
  apply stripPrefix_Some in Hpre.
  destruct (isSpace c) eqn:Hc; [|done].
  destruct (dropWhile isSpace s1) as [|c2 s2] eqn:Hs1; [done|].
  destruct (isIdentStart c2) eqn:Hc2; [|done].
  set (nm := c2 :: takeWhile isIdentChar s2).
  assert (Hl : forall rest, dropWhile isIdentChar s2 = rest ->
            l = takeWhile isSpace l ++ js "def"
                ++ (c :: takeWhile isSpace s1) ++ nm ++ rest).
  { intros rest <-. unfold nm. cbn [app].
    rewrite takeWhile_dropWhile, <- Hs1, takeWhile_dropWhile, <- Hpre.
    by rewrite takeWhile_dropWhile. }
  assert (Hnm : isIdentifier nm = true).
  { simpl. by rewrite Hc2, forallb_takeWhile. }
  assert (Hws1 : forallb isSpace (c :: takeWhile isSpace s1) = true).
  { simpl. by rewrite Hc, forallb_takeWhile. }
  destruct (argsGroup _ _) as [m'|] eqn:Hargs.
  - intros _. unfold argsGroup in Hargs.
    destruct (dropWhile isIdentChar s2) as [|x s4] eqn:Hs3; [done|].
    destruct (isChar LPAREN x) eqn:Hx; [|done]. apply isChar_eq in Hx as ->.
    destruct (dropWhile notRParen s4) as [|y s6] eqn:Hs4; [done|].
    destruct (isChar RPAREN y) eqn:Hy; [|done]. apply isChar_eq in Hy as ->.
    apply tailColon_shape in Hargs as (ws2 & tail & -> & Hws2).
    exists (takeWhile isSpace l), (c :: takeWhile isSpace s1), nm,
      (Some (takeWhile notRParen s4)), ws2, tail.
    split.
    + etransitivity; [apply (Hl _ eq_refl)|]. cbn [parenthesized app].
      rewrite <- (takeWhile_dropWhile notRParen s4) at 1. rewrite Hs4.
      by rewrite <- !app_assoc.
    + repeat split; try done; apply forallb_takeWhile.
  - intros (ws2 & tail & Hs3 & Hws2)%tailColon_shape.
    exists (takeWhile isSpace l), (c :: takeWhile isSpace s1), nm, None,
      ws2, tail.
    split; [by apply Hl|]. repeat split; try done; apply forallb_takeWhile.
Qed.

(** C5: the lines the header pattern accepts are the headers; a header
    line gives exactly one record; its name is the identifier of the
    header, and its arguments are the pieces of the parenthesized text
    between semicolons, trimmed, the empty ones dropped: those that start
    with the sigil are the value arguments, the others the filter
    arguments, both in the order of the text. *)
Theorem C5_header_record (text : str) (fs : list JQFunction) (i : nat)
    (l : str) :
  parse text = Ok fs -> split_lines text !! i = Some l ->
  (is_Some (matchAt defRegex l) ->
   exists ws ws1 nm raw ws2 tail,
     l = headerLine ws ws1 nm raw ws2 tail /\ headerParts ws ws1 nm raw ws2) /\
  (forall ws ws1 nm raw ws2 tail,
     l = headerLine ws ws1 nm raw ws2 tail -> headerParts ws ws1 nm raw ws2 ->
     exists r,
       List.filter (fun r => startLine r =? i) fs = [r] /\
       name r = nm /\
       let pieces :=
         List.filter truthy (map trim (split_on SEMI (default [] raw))) in
       valueArgs r = List.filter (startsWith DOLLAR) pieces /\
       filterArgs r
       = List.filter (fun a => negb (startsWith DOLLAR a)) pieces).
Proof.
  intros Hp Hl. split.
  - rewrite matchAt_defRegex. intros [m Hm]. by apply headerMatch_shape in Hm.
  - intros ws ws1 nm raw ws2 tail -> (Hws & Hne & Hws1 & Hnm & Hraw & Hws2).
    rewrite (parse_at _ _ i Hp), Hl, matchAt_defRegex.
    rewrite headerMatch_headerLine by done.
    destruct raw as [a|]; simpl; eexists; repeat split; reflexivity.
Qed.

(** ** Lines that are not headers *)

Lemma elem_of_dropWhile (x : N) p s : x ∈ dropWhile p s -> x ∈ s.
Proof.
  induction s as [|c s IH]; simpl; [done|].
  destruct (p c); [|done]. intros H. apply elem_of_cons. right. auto.
Qed.

Lemma elem_of_stripPrefix (x : N) pre s r :
  stripPrefix pre s = Some r -> x ∈ r -> x ∈ s.
Proof.
  revert s. induction pre as [|c pre IH]; intros s; simpl.
  { by intros [= <-]. }
  destruct s as [|y s]; [done|]. destruct (isChar c y); [|done].
  intros H Hx. apply elem_of_cons. right. eauto.
Qed.

Lemma tailColon_colon s caps m : tailColon s caps = Some m -> COLON ∈ s.
Proof.
  unfold tailColon. destruct (dropWhile isSpace s) as [|c t] eqn:Hd; [done|].
  destruct (isChar COLON c) eqn:Hc; [|done]. intros _.
  apply isChar_eq in Hc as ->. apply (elem_of_dropWhile _ isSpace).
  rewrite Hd. by left.
Qed.

Lemma argsGroup_colon s caps m : argsGroup s caps = Some m -> COLON ∈ s.
Proof.
  unfold argsGroup. destruct s as [|c s4]; [done|].
  destruct (isChar LPAREN c); [|done].
  destruct (dropWhile notRParen s4) as [|c' s6] eqn:Hd; [done|].
  destruct (isChar RPAREN c'); [|done]. intros H%tailColon_colon.
  apply elem_of_cons. right. apply (elem_of_dropWhile _ notRParen).
  rewrite Hd. apply elem_of_cons. by right.
Qed.

Lemma headerMatch_colon l m : headerMatch l = Some m -> COLON ∈ l.
Proof.
  unfold headerMatch.
  destruct (stripPrefix _ _) as [[|c s1]|] eqn:Hpre; [done| |done].
  destruct (isSpace c); [|done].
  destruct (dropWhile isSpace s1) as [|c2 s2] eqn:Hs1; [done|].
  destruct (isIdentStart c2); [|done]. intros H.
  assert (Hs3 : COLON ∈ dropWhile isIdentChar s2).
  { destruct (argsGroup _ _) eqn:Ha; [by apply argsGroup_colon in Ha|].
    by apply tailColon_colon in H. }
  apply (elem_of_dropWhile _ isSpace), (elem_of_stripPrefix _ _ _ _ Hpre).
  apply elem_of_cons. right. apply (elem_of_dropWhile _ isSpace).
  rewrite Hs1. apply elem_of_cons. right.
  by apply (elem_of_dropWhile _ isIdentChar).
Qed.

Lemma dropWhile_all p s : (forall x, x ∈ s -> p x = true) -> dropWhile p s = [].
Proof.
  induction s as [|c s IH]; simpl; [done|]. intros H.
  rewrite (H c) by (by left). apply IH. intros x Hx. apply H. by right.
Qed.

Lemma headerMatch_unclosed ws ws1 nm rest :
  forallb isSpace ws = true -> ws1 <> [] -> forallb isSpace ws1 = true ->
  isIdentifier nm = true -> RPAREN ∉ rest ->
  headerMatch (ws ++ js "def" ++ ws1 ++ nm ++ LPAREN :: rest) = None.
Proof.
  intros Hws Hne Hws1 Hnm Hrest. rewrite headerMatch_prefix by done.
  cbn zeta. unfold argsGroup, tailColon.
  rewrite dropWhile_all.
  - by rewrite dropWhile_stop.
  - intros x Hx. unfold notRParen. apply negb_true_iff, N.eqb_neq.
    by intros ->.
Qed.

(** C9, as the code has it: [parse] returns on every text and never
    throws; a line that fails the header pattern gives no record; a line
    without a colon, and a header whose parenthesis is never closed, fail
    the pattern. *)
Theorem C9_parse_total (text : str) :
  exists fs,
    parse text = Ok fs /\
    (forall i l r, split_lines text !! i = Some l ->
                   matchAt defRegex l = None -> r ∈ fs -> startLine r <> i) /\
    (forall l, COLON ∉ l -> matchAt defRegex l = None) /\
    (forall ws ws1 nm rest,
       forallb isSpace ws = true -> ws1 <> [] -> forallb isSpace ws1 = true ->
       isIdentifier nm = true -> RPAREN ∉ rest ->
       matchAt defRegex (ws ++ js "def" ++ ws1 ++ nm ++ LPAREN :: rest) = None).
Proof.
  destruct (parse_total text) as (fs & Hp). exists fs. split; [done|].
  split; [|split].
  - intros i l r Hl Hm Hr Hi.
    pose proof (parse_at _ _ i Hp) as Hat. rewrite Hl, Hm in Hat.
    assert (Hin : In r (List.filter (fun r => startLine r =? i) fs)).
    { apply filter_In. split; [by apply list_elem_of_In|by apply Nat.eqb_eq]. }
    by rewrite Hat in Hin.
  - intros l Hl. rewrite matchAt_defRegex.
    destruct (headerMatch l) as [m|] eqn:Hm; [|done].
    by apply headerMatch_colon in Hm.
  - intros ws ws1 nm rest Hws Hne Hws1 Hnm Hrest.
    rewrite matchAt_defRegex. by apply headerMatch_unclosed.
Qed.

(** ** Tokens *)

Lemma matchAt_tokenRegex s :
  matchAt tokenRegex s
  = match s with
    | c :: s' =>
        if isIdentStart c
        then Some {| m_rest := dropWhile isIdentChar s';
                     m_caps := [(1, c :: takeWhile isIdentChar s')] |}
        else None
    | [] => None
    end.
Proof.
  unfold matchAt, tokenRegex. cbn [rmatch]. destruct s as [|c s']; [done|].
  destruct (isIdentStart c); [|done].
  apply starK_some. by rewrite take_cons_takeWhile.
Qed.

Lemma search_tokenRegex s i j w rest :
  search tokenRegex s i = Some (j, w, rest) ->
  exists skip, s = skip ++ w ++ rest /\ j = i + length skip /\
               isIdentifier w = true.
Proof.
  revert i. induction s as [|c s IH]; intros i; cbn [search].
  { by rewrite matchAt_tokenRegex. }
  rewrite matchAt_tokenRegex. destruct (isIdentStart c) eqn:Hc.
  - cbn [m_rest]. unfold matchedText. rewrite take_cons_takeWhile.
    intros [= <- <- <-]. exists []. simpl.
    rewrite takeWhile_dropWhile, Hc, forallb_takeWhile.
    repeat split; lia.
  - intros (skip & -> & -> & Hw)%IH. exists (c :: skip). simpl.
    repeat split; [lia|done].
Qed.

Lemma execAll_tokens fuel rest idx toks pre :
  execAll fuel tokenRegex rest idx = Ok toks -> length pre = idx ->
  forall off w, (off, w) ∈ toks ->
    exists p post, pre ++ rest = p ++ w ++ post /\ length p = off /\
                   isIdentifier w = true.
Proof.
  revert rest idx toks pre.
  induction fuel as [|fuel IH]; intros rest idx toks pre; simpl; [done|].
  destruct (search tokenRegex rest idx) as [[[j w] rest']|] eqn:Hs.
  2:{ intros [= <-] _ off w' H. by apply elem_of_nil in H. }
  apply search_tokenRegex in Hs as (skip & -> & -> & Hw).
  destruct (execAll fuel tokenRegex rest' _) as [more| | |] eqn:Hmore;
    simpl; try done.
  intros [= <-] Hpre off w' [[= -> ->]|Hin]%elem_of_cons.
  - exists (pre ++ skip), rest'. rewrite length_app, <- !app_assoc.
    repeat split; [lia|done].
  - destruct (IH _ _ _ (pre ++ skip ++ w) Hmore) with (off := off) (w := w')
      as (p & post & Heq & Hlen & Hw'); [|done|].
    { rewrite !length_app. lia. }
    exists p, post. rewrite <- Heq, <- !app_assoc. done.
Qed.

Lemma execAll_total fuel rest idx :
  length rest < fuel -> exists toks, execAll fuel tokenRegex rest idx = Ok toks.
Proof.
  revert rest idx. induction fuel as [|fuel IH]; intros rest idx Hlt; [lia|].
  simpl. destruct (search tokenRegex rest idx) as [[[j w] rest']|] eqn:Hs.
  2:{ by eexists. }
  apply search_tokenRegex in Hs as (skip & -> & -> & Hw).
  destruct (IH rest' (idx + length skip + length w)) as (more & ->).
  { rewrite !length_app in Hlt. destruct w; [done|]. simpl in Hlt. lia. }
  simpl. by eexists.
Qed.

Lemma tokensOf_total text : exists toks, tokensOf text = Ok toks.
Proof. apply execAll_total. lia. Qed.

Lemma provideDocumentSemanticTokens_total B text :
  exists spans, provideDocumentSemanticTokens B text = Ok spans.
Proof.
  unfold provideDocumentSemanticTokens.
  destruct (parse_total text) as (fs & ->). simpl.
  destruct (tokensOf_total text) as (toks & Ht).
  unfold classifyTokens. fold (tokensOf text). rewrite Ht. simpl. by eexists.
Qed.

(** A token stands in the text at its index and is an identifier. *)
Lemma tokensOf_elem text toks off w :
  tokensOf text = Ok toks -> (off, w) ∈ toks ->
  exists pre post, text = pre ++ w ++ post /\ length pre = off /\
                   isIdentifier w = true.
Proof.
  intros Ht Hin.
  by destruct (execAll_tokens _ _ _ _ [] Ht eq_refl off w Hin)
    as (p & post & Heq & Hlen & Hw); eauto.
Qed.

(** ** The line of an offset *)

Lemma lastIndexOf_from_app c start s1 s2 i found :
  lastIndexOf_from c start (s1 ++ s2) i found
  = lastIndexOf_from c start s2 (i + Z.of_nat (length s1))
      (lastIndexOf_from c start s1 i found).
Proof.
  revert i found. induction s1 as [|x s1 IH]; intros i found; simpl.
  - by rewrite Z.add_0_r.
  - rewrite IH. f_equal. lia.
Qed.

Lemma lastIndexOf_from_beyond c start s i found :
  (start < i)%Z -> lastIndexOf_from c start s i found = found.
Proof.
  revert i. induction s as [|x s IH]; intros i Hi; simpl; [done|].
  replace (i <=? start)%Z with false by (symmetry; apply Z.leb_gt; lia).
  simpl. apply IH. lia.
Qed.

Lemma lastIndexOf_from_absent start s i found :
  forallb notLF s = true -> lastIndexOf_from LF start s i found = found.
Proof.
  revert i. induction s as [|x s IH]; intros i; simpl; [done|].
  intros [Hx Hs]%andb_true_iff. unfold notLF in Hx.
  apply negb_true_iff in Hx. rewrite Hx, andb_false_r. by apply IH.
Qed.

Lemma indexOf_from_skip c start s1 s2 i :
  (forall k x, s1 !! k = Some x -> (i + Z.of_nat k < start)%Z \/ x <> c) ->
  indexOf_from c start (s1 ++ s2) i
  = indexOf_from c start s2 (i + Z.of_nat (length s1)).
Proof.
  revert i. induction s1 as [|x s1 IH]; intros i Hskip; simpl.
  - by rewrite Z.add_0_r.
  - replace ((start <=? i)%Z && (x =? c)%N) with false.
    + rewrite IH.
      * f_equal. lia.
      * intros k y Hk. destruct (Hskip (S k) y Hk); [left; lia|by right].
    + symmetry. apply andb_false_iff.
      destruct (Hskip 0 x eq_refl) as [H|H].
      * left. apply Z.leb_gt. lia.
      * right. by apply N.eqb_neq.
Qed.

Lemma split_last_LF (pre : str) :
  exists A L1, pre = A ++ L1 /\ forallb notLF L1 = true /\
               (A = [] \/ exists A', A = A' ++ [LF]).
Proof.
  induction pre as [|x pre IH] using rev_ind.
  { exists [], []. auto. }
  destruct (notLF x) eqn:Hx.
  - destruct IH as (A & L1 & -> & HL1 & HA). exists A, (L1 ++ [x]).
    rewrite app_assoc, forallb_app. simpl. rewrite HL1, Hx. auto.
  - exists (pre ++ [x]), []. rewrite app_nil_r.
    split; [done|]. split; [done|].
    right. exists pre. unfold notLF in Hx.
    apply negb_false_iff, N.eqb_eq in Hx. by subst.
Qed.

Lemma split_first_LF (s : str) :
  exists L2 R, s = L2 ++ R /\ forallb notLF L2 = true /\
               (R = [] \/ exists B, R = LF :: B).
Proof.
  exists (takeWhile notLF s), (dropWhile notLF s).
  rewrite takeWhile_dropWhile, forallb_takeWhile.
  split; [done|]. split; [done|].
  destruct (dropWhile notLF s) as [|x B] eqn:Hd; [by left|right].
  apply dropWhile_head in Hd. unfold notLF in Hd.
  apply negb_false_iff, N.eqb_eq in Hd. subst. by eexists.
Qed.

Lemma notLF_lookup (M : str) k x :
  forallb notLF M = true -> M !! k = Some x -> x <> LF.
Proof.
  intros HM Hk. apply list_elem_of_lookup_2, list_elem_of_In in Hk.
  rewrite forallb_forall in HM. specialize (HM x Hk). unfold notLF in HM.
  by apply negb_true_iff, N.eqb_neq in HM.
Qed.

(** The two index searches of [isInComment] and its [substring], for an
    offset that stands on a unit other than a line feed. *)
Lemma isInComment_line A M1 c M2 R :
  (A = [] \/ exists A', A = A' ++ [LF]) ->
  forallb notLF (M1 ++ c :: M2) = true ->
  (R = [] \/ exists B, R = LF :: B) ->
  isInComment (A ++ (M1 ++ c :: M2) ++ R) (Z.of_nat (length (A ++ M1)))
  = test commentRegex (M1 ++ c :: M2).
Proof.
  intros HA HM HR. unfold isInComment.
  set (M := M1 ++ c :: M2) in *. set (text := A ++ M ++ R).
  assert (HM1 : forallb notLF M1 = true /\ forallb notLF (c :: M2) = true).
  { unfold M in HM. by rewrite forallb_app, andb_true_iff in HM. }
  destruct HM1 as [HM1 HcM2].
  assert (HlenM : length M = length M1 + S (length M2)).
  { unfold M. by rewrite length_app. }
  assert (Hstart : (lastIndexOf text LF (Z.of_nat (length (A ++ M1)) - 1) + 1
                    = Z.of_nat (length A))%Z).
  { unfold lastIndexOf, text, M. rewrite <- app_assoc.
    rewrite lastIndexOf_from_app.
    rewrite (lastIndexOf_from_app _ _ M1).
    rewrite (lastIndexOf_from_app _ _ [c] (M2 ++ R)).
    rewrite (lastIndexOf_from_beyond _ _ (M2 ++ R)).
    2:{ rewrite length_app. simpl length. lia. }
    rewrite (lastIndexOf_from_absent _ [c]).
    2:{ simpl in HcM2 |- *. apply andb_true_iff in HcM2 as [-> _]. done. }
    rewrite lastIndexOf_from_absent by done.
    destruct HA as [->|(A' & ->)]; [done|].
    rewrite lastIndexOf_from_app. simpl.
    rewrite !length_app. simpl length.
    replace (_ <=? _)%Z with true by (symmetry; apply Z.leb_le; lia).
    simpl. lia. }
  rewrite Hstart.
  assert (Hidx : indexOf text LF (Z.of_nat (length A) + 1)
                 = match R with
                   | [] => (-1)%Z
                   | _ :: _ => Z.of_nat (length A + length M)
                   end).
  { unfold indexOf, text. rewrite app_assoc.
    rewrite indexOf_from_skip.
    - rewrite length_app.
      destruct HR as [->|(B & ->)]; [done|]. simpl.
      replace (_ <=? _)%Z with true by (symmetry; apply Z.leb_le; lia).
      simpl. lia.
    - intros k x Hk. destruct (decide (k < length A)) as [Hlt|Hge].
      + left. lia.
      + right. rewrite lookup_app_r in Hk by lia.
        by apply (notLF_lookup M _ x HM) in Hk. }
  rewrite Hidx. f_equal. unfold substring.
  assert (Hlen : length text = length A + length M + length R).
  { unfold text. rewrite !length_app. lia. }
  set (hi := if (_ =? -1)%Z then _ else _).
  assert (Hhi : hi = Z.of_nat (length A + length M)).
  { unfold hi. destruct R as [|x R]; simpl.
    - rewrite Hlen. simpl. f_equal. lia.
    - replace (_ =? -1)%Z with false; [done|].
      symmetry. apply Z.eqb_neq. lia. }
  rewrite Hhi, Hlen.
  replace (Z.min (Z.max (Z.of_nat (length A)) 0) _) with (Z.of_nat (length A))
    by lia.
  replace (Z.min (Z.max (Z.of_nat (length A + length M)) 0) _)
    with (Z.of_nat (length A + length M)) by lia.
  replace (Z.min _ _) with (Z.of_nat (length A)) by lia.
  replace (Z.max _ _) with (Z.of_nat (length A + length M)) by lia.
  replace (Z.to_nat (_ - _)) with (length M) by lia.
  rewrite Nat2Z.id. unfold text.
  by rewrite drop_app_length, take_app_length.
Qed.

Lemma test_commentRegex s :
  test commentRegex s = startsWith HASH (dropWhile isSpace s).
Proof.
  unfold test, matchAt, commentRegex. rewrite rmatch_seqs_cons. cbn [rmatch].
  rewrite starK_greedy.
  - rewrite rmatch_seqs_cons. cbn [rmatch].
    destruct (dropWhile isSpace s) as [|c t]; [done|]. simpl.
    unfold isChar. by destruct (c =? HASH)%N.
  - intros c s' Hc. rewrite rmatch_seqs_cons. cbn [rmatch].
    by rewrite (space_not_char c HASH).
Qed.

Lemma dropWhile_snoc_stop p u x :
  p x = false -> exists u', dropWhile p (u ++ [x]) = u' ++ [x].
Proof.
  intros Hx. induction u as [|c u IH]; simpl.
  - rewrite Hx. by exists [].
  - destruct (p c); [done|]. by exists (c :: u).
Qed.

Lemma startsWith_trimEnd d t :
  startsWith d (trimEnd (dropWhile isSpace t))
  = startsWith d (dropWhile isSpace t).
Proof.
  destruct (dropWhile isSpace t) as [|x t'] eqn:Hd; [done|].
  apply dropWhile_head in Hd. unfold trimEnd.
  destruct (rev t') as [|y r] eqn:Hr.
  - apply (f_equal (@rev N)) in Hr. rewrite rev_involutive in Hr. subst t'.
    simpl. by rewrite Hd.
  - change (rev (x :: t')) with (rev t' ++ [x]).
    destruct (dropWhile_snoc_stop isSpace (rev t') x Hd) as (u' & ->).
    by rewrite rev_app_distr.
Qed.

Lemma isCommentLine_trimStart l :
  isCommentLine l = startsWith HASH (dropWhile isSpace l).
Proof. unfold isCommentLine, trim, trimStart. apply startsWith_trimEnd. Qed.

Lemma isCommentLine_chomp l :
  isCommentLine l = startsWith HASH (dropWhile isSpace (l ++ [CR])).
Proof.
  rewrite isCommentLine_trimStart.
  induction l as [|c l IH]; simpl; [done|]. by destruct (isSpace c).
Qed.

Lemma count_LF_app (a b : str) :
  length (List.filter (isChar LF) (a ++ b))
  = length (List.filter (isChar LF) a) + length (List.filter (isChar LF) b).
Proof. by rewrite List.filter_app, length_app. Qed.

Lemma count_LF_absent (s : str) :
  forallb notLF s = true -> List.filter (isChar LF) s = [].
Proof.
  induction s as [|c s IH]; simpl; [done|].
  intros [Hc Hs]%andb_true_iff. unfold notLF in Hc. unfold isChar.
  apply negb_true_iff in Hc. rewrite Hc. auto.
Qed.

Lemma cons_first_app c X Y :
  X <> [] -> cons_first c (X ++ Y) = cons_first c X ++ Y.
Proof. by destruct X. Qed.

Lemma length_cons_first c X : X <> [] -> length (cons_first c X) = length X.
Proof. by destruct X. Qed.

(** The lines before a line feed, and the lines after it. *)
Lemma split_lines_after P R :
  exists X, split_lines (P ++ LF :: R) = X ++ split_lines R /\
            length X = S (length (List.filter (isChar LF) P)).
Proof.
  induction P as [|c P (X & IH & Hlen)]; cbn [app split_lines].
  { exists [[]]. by rewrite N.eqb_refl. }
  cbn [List.filter]. change (isChar LF c) with (c =? LF)%N.
  destruct (c =? LF)%N eqn:Hc.
  - exists ([] :: X). rewrite IH. simpl. by rewrite Hlen.
  - destruct ((c =? CR)%N && startsWithLF (P ++ LF :: R)).
    + by exists X.
    + exists (cons_first c X). rewrite IH.
      assert (X <> []) by (by destruct X).
      by rewrite cons_first_app, length_cons_first.
Qed.

(** The first line of a text that starts with [M]. *)
Lemma split_lines_head M R :
  forallb notLF M = true -> (R = [] \/ exists B, R = LF :: B) ->
  exists l ls, split_lines (M ++ R) = l :: ls /\ (l = M \/ l ++ [CR] = M).
Proof.
  intros HM HR. induction M as [|c M IH]; cbn [app].
  { destruct HR as [->|(B & ->)]; simpl; eauto. }
  simpl in HM. apply andb_true_iff in HM as [Hc HM]. cbn [split_lines].
  unfold notLF in Hc. apply negb_true_iff in Hc. rewrite Hc.
  destruct ((c =? CR)%N && startsWithLF (M ++ R)) eqn:Hcr.
  - apply andb_true_iff in Hcr as [Hcr Hlf]. apply N.eqb_eq in Hcr as ->.
    destruct M as [|x M].
    + destruct HR as [->|(B & ->)]; [done|]. simpl. eauto.
    + simpl in HM, Hlf. apply andb_true_iff in HM as [Hx _].
      unfold notLF in Hx. unfold LF in *. by rewrite Hlf in Hx.
  - destruct (IH HM) as (l & ls & -> & Hl). simpl.
    exists (c :: l), ls. split; [done|].
    destruct Hl as [->|<-]; [by left|by right].
Qed.

Lemma split_lines_line A M R :
  (A = [] \/ exists A', A = A' ++ [LF]) ->
  forallb notLF M = true -> (R = [] \/ exists B, R = LF :: B) ->
  exists l,
    split_lines (A ++ M ++ R) !! length (List.filter (isChar LF) A) = Some l /\
    (l = M \/ l ++ [CR] = M).
Proof.
  intros HA HM HR. destruct (split_lines_head M R HM HR) as (l & ls & Hs & Hl).
  exists l. split; [|done]. destruct HA as [->|(A' & ->)].
  - simpl. by rewrite Hs.
  - rewrite <- app_assoc. cbn [app].
    destruct (split_lines_after A' (M ++ R)) as (X & -> & Hlen).
    rewrite count_LF_app. simpl.
    replace (_ + 1) with (length X + 0) by lia.
    by rewrite lookup_app_r, Nat.add_comm, Nat.add_sub, Hs by lia.
Qed.

(** [isInComment] at an offset that stands on a unit other than a line
    feed tells whether the line of that offset is a comment line. *)
Lemma isInComment_lineOf pre c post :
  notLF c = true ->
  isInComment (pre ++ c :: post) (Z.of_nat (length pre))
  = isCommentLine (lineOf (pre ++ c :: post) (length pre)).
Proof.
  intros Hc.
  destruct (split_last_LF pre) as (A & M1 & -> & HM1 & HA).
  destruct (split_first_LF post) as (M2 & R & -> & HM2 & HR).
  assert (HM : forallb notLF (M1 ++ c :: M2) = true).
  { rewrite forallb_app. simpl. by rewrite HM1, Hc, HM2. }
  replace ((A ++ M1) ++ c :: M2 ++ R) with (A ++ (M1 ++ c :: M2) ++ R)
    by (by rewrite <- !app_assoc).
  rewrite isInComment_line, test_commentRegex by done.
  unfold lineOf, positionAt. cbn [line].
  replace (A ++ (M1 ++ c :: M2) ++ R) with ((A ++ M1) ++ c :: M2 ++ R) at 1
    by (by rewrite <- !app_assoc).
  rewrite take_app_length, count_LF_app, (count_LF_absent M1 HM1), Nat.add_0_r.
  destruct (split_lines_line A _ R HA HM HR) as (l & Hl & Hcases).
  rewrite (nth_lookup_Some _ _ _ _ Hl).
  destruct Hcases as [->|<-].
  - by rewrite isCommentLine_trimStart.
  - by rewrite <- isCommentLine_chomp.
Qed.

(** ** The classifier *)

Lemma str_eqb_eq a b : str_eqb a b = true <-> a = b.
Proof. unfold str_eqb. apply bool_decide_eq_true. Qed.

Lemma isParam_paramNames f w :
  isValueParam f w || isFilterParam f w = true <-> w ∈ paramNames f.
Proof.
  unfold isValueParam, isFilterParam, paramNames.
  rewrite orb_true_iff, !existsb_exists, elem_of_app, list_elem_of_fmap.
  split.
  - intros [(a & Ha & He)|(a & Ha & He)]; apply str_eqb_eq in He.
    + left. exists a. split; [done|]. by apply list_elem_of_In.
    + right. subst. by apply list_elem_of_In.
  - intros [(a & -> & Ha)|Ha].
    + left. exists a. split; [by apply list_elem_of_In|by apply str_eqb_eq].
    + right. exists w. split; [by apply list_elem_of_In|by apply str_eqb_eq].
Qed.

Lemma inRangeOf_holdsLine l f : inRangeOf l f = true <-> holdsLine f l.
Proof.
  unfold inRangeOf, holdsLine.
  by rewrite andb_true_iff, !Nat.leb_le.
Qed.

Lemma getContextFunction_Some fs l f :
  getContextFunction fs l = Some f <-> enclosing fs l f.
Proof.
  unfold getContextFunction, enclosing. induction fs as [|g fs IH]; simpl.
  { split; [done|]. by intros (i & Hi & _). }
  destruct (inRangeOf l g) eqn:Hg.
  - apply inRangeOf_holdsLine in Hg. split.
    + intros [= <-]. exists 0. repeat split; try done; try apply Hg.
      intros; lia.
    + intros ([|i] & Hi & Hf & Hbefore).
      * by injection Hi as ->.
      * destruct (Hbefore 0 g); [lia|done|done].
  - rewrite IH. split.
    + intros (i & Hi & Hf & Hbefore). exists (S i). repeat split;
        try done; try apply Hf.
      intros [|j] g' Hj; simpl.
      * intros [= <-] Hh%inRangeOf_holdsLine. congruence.
      * apply Hbefore. lia.
    + intros ([|i] & Hi & Hf & Hbefore).
      * injection Hi as ->. apply inRangeOf_holdsLine in Hf. congruence.
      * exists i. repeat split; try done; try apply Hf.
        intros j g' Hj. apply (Hbefore (S j)). lia.
Qed.

Lemma getContextFunction_None fs l :
  getContextFunction fs l = None -> forall f, ~ enclosing fs l f.
Proof.
  intros Hn f Hf%getContextFunction_Some. congruence.
Qed.

Lemma elem_of_userFuncNames fs w :
  w ∈ userFuncNames fs <-> isUserFunction fs w.
Proof.
  unfold userFuncNames, isUserFunction.
  rewrite elem_of_list_to_set, list_elem_of_fmap.
  split; intros (f & H1 & H2); exists f; by split.
Qed.

Lemma elem_of_fold_add (g : str -> str) (l : list str) (acc : gset str)
    (x : str) :
  x ∈ fold_left (fun acc a => {[ g a ]} ∪ acc) l acc
  <-> x ∈ acc \/ x ∈ map g l.
Proof.
  revert acc. induction l as [|a l IH]; intros acc; simpl.
  - rewrite elem_of_nil. tauto.
  - rewrite IH, elem_of_union, elem_of_singleton, elem_of_cons. tauto.
Qed.

Lemma elem_of_allParams_from (fs : list JQFunction) (acc : gset str)
    (x : str) :
  x ∈ fold_left
        (fun acc f =>
           let acc :=
             fold_left (fun acc arg => {[ stripSigil arg ]} ∪ acc)
                       (valueArgs f) acc in
           fold_left (fun acc arg => {[ arg ]} ∪ acc) (filterArgs f) acc)
        fs acc
  <-> x ∈ acc \/ isParameterSomewhere fs x.
Proof.
  unfold isParameterSomewhere.
  revert acc. induction fs as [|f fs IH]; intros acc; simpl.
  - split; [by left|]. intros [H|(f & Hf & _)]; [done|].
    by apply elem_of_nil in Hf.
  - rewrite IH. cbv zeta.
    rewrite (elem_of_fold_add (fun a => a)), elem_of_fold_add, map_id.
    unfold paramNames. split.
    + intros [[[H|H]|H]|(g & Hg & Hx)]; [by left| | |].
      * right. exists f. split; [by left|]. apply elem_of_app. by left.
      * right. exists f. split; [by left|]. apply elem_of_app. by right.
      * right. exists g. split; [by right|done].
    + intros [H|(g & [->|Hg]%elem_of_cons & Hx)].
      * by left; left; left.
      * apply elem_of_app in Hx as [Hx|Hx]; [by left; left; right|by left; right].
      * right. by exists g.
Qed.

Lemma elem_of_allParams fs x :
  x ∈ allParams fs <-> isParameterSomewhere fs x.
Proof.
  unfold allParams. rewrite elem_of_allParams_from.
  split; [|by right]. by intros [H%not_elem_of_empty|H].
Qed.

Lemma identifier_head w :
  isIdentifier w = true -> exists c w', w = c :: w' /\ notLF c = true.
Proof.
  destruct w as [|c w']; [done|]. simpl. intros [Hc _]%andb_true_iff.
  exists c, w'. split; [done|].
  by apply identChar_notLF, identStart_identChar.
Qed.

(** For a token, [isInComment] tells whether its line is a comment line. *)
Lemma isInComment_token text toks off w :
  tokensOf text = Ok toks -> (off, w) ∈ toks ->
  isInComment text (Z.of_nat off) = isCommentLine (lineOf text off).
Proof.
  intros Ht Hin.
  destruct (tokensOf_elem _ _ _ _ Ht Hin) as (pre & post & -> & <- & Hw).
  destruct (identifier_head w Hw) as (c & w' & -> & Hc).
  by apply (isInComment_lineOf pre c (w' ++ post)).
Qed.

Lemma classifyTokens_ok B text fs toks :
  tokensOf text = Ok toks ->
  classifyTokens B text fs
  = Ok (omap (M:=list) (fun t => classifyToken B text fs t.1 t.2) toks).
Proof. unfold classifyTokens, tokensOf. by intros ->. Qed.

Lemma classifyToken_start B text fs off w sp :
  classifyToken B text fs off w = Some sp ->
  span_start sp = positionAt text off /\
  isInComment text (Z.of_nat off) = false.
Proof.
  unfold classifyToken. destruct (isInComment text (Z.of_nat off)); [done|].
  repeat match goal with
         | |- context [if ?b then _ else _] => destruct b
         end; by intros [= <-].
Qed.

(** Outside comment lines the three tests of the token loop are the
    priority rules. *)
Lemma categoryOf_rules B text fs off w :
  isInComment text (Z.of_nat off) = false ->
  classifiedAs B fs (line (positionAt text off)) w
    (categoryOf B text fs off w).
Proof.
  intros Hc. unfold categoryOf, classifyToken. rewrite Hc.
  set (l := line (positionAt text off)).
  assert (Hparam :
    match getContextFunction fs l with
    | Some cf => isValueParam cf w || isFilterParam cf w
    | None => false
    end = true <-> isParameterHere fs l w).
  { unfold isParameterHere.
    destruct (getContextFunction fs l) as [cf|] eqn:Hcf.
    - rewrite isParam_paramNames. apply getContextFunction_Some in Hcf as Hen.
      split; [by exists cf|]. intros (f & Hf%getContextFunction_Some & Hw).
      congruence.
    - split; [done|]. intros (f & Hf & _).
      by apply (getContextFunction_None _ _ Hcf) in Hf. }
  destruct (match getContextFunction fs l with
            | Some cf => _ | None => _ end) eqn:Hp.
  { apply rule_parameter. by apply Hparam. }
  assert (~ isParameterHere fs l w) as Hnp.
  { intros H%Hparam. congruence. }
  destruct (bool_decide (w ∈ userFuncNames fs)) eqn:Hu.
  { apply rule_function_user; [done|].
    apply bool_decide_eq_true in Hu. by apply elem_of_userFuncNames. }
  assert (~ isUserFunction fs w) as Hnu.
  { intros H%elem_of_userFuncNames. by apply bool_decide_eq_false in Hu. }
  destruct (bool_decide (w ∈ B) && negb (bool_decide (w ∈ allParams fs)))
    eqn:Hb.
  - apply andb_true_iff in Hb as [Hb%bool_decide_eq_true Ha%negb_true_iff].
    apply bool_decide_eq_false in Ha.
    apply rule_function_builtin; try done.
    by rewrite <- elem_of_allParams.
  - apply rule_none; try done. intros [Hb' Ha].
    apply andb_false_iff in Hb as [Hb%bool_decide_eq_false|Hb]; [done|].
    apply negb_false_iff, bool_decide_eq_true in Hb.
    by apply Ha, elem_of_allParams.
Qed.

(** ** Classification *)


(** C6: a token on a line whose trimmed text starts with [#] gets no
    span, and no span of the result starts where the token stands. *)
Theorem C6_comment_lines_unclassified (BUILTINS : list str) (text : str)
    (fs : list JQFunction) (toks : list (nat * str)) (off : nat) (w : str) :
  tokensOf text = Ok toks -> (off, w) ∈ toks ->
  isCommentLine (lineOf text off) = true ->
  classifyToken BUILTINS text fs off w = None /\
  exists spans,
    classifyTokens BUILTINS text fs = Ok spans /\
    forall sp, sp ∈ spans -> span_start sp <> positionAt text off.
Proof.
  intros Ht Hin Hc. split.
  - unfold classifyToken.
    by rewrite (isInComment_token _ _ _ _ Ht Hin), Hc.
  - eexists. split; [by apply classifyTokens_ok|].
    intros sp ([off' w'] & Hin' & Hsp)%list_elem_of_omap Heq.
    apply classifyToken_start in Hsp as [Hstart Hnc]. simpl in *.
    rewrite (isInComment_token _ _ _ _ Ht Hin') in Hnc.
    unfold lineOf in Hc, Hnc. rewrite <- Hstart, Heq in Hnc. congruence.
Qed.

(** ** Completion *)

Lemma fold_left_push {A B : Type} (g : A -> B) (l : list A) (acc : list B) :
  fold_left (fun acc a => push acc (g a)) l acc = acc ++ map g l.
Proof.
  revert acc. induction l as [|a l IH]; intros acc; simpl.
  - by rewrite app_nil_r.
  - rewrite IH. unfold push. by rewrite <- app_assoc.
Qed.

Lemma fold_left_push_if {A B : Type} (p : A -> bool) (g : A -> B)
    (l : list A) (acc : list B) :
  fold_left (fun acc a => if p a then push acc (g a) else acc) l acc
  = acc ++ map g (List.filter p l).
Proof.
  revert acc. induction l as [|a l IH]; intros acc; simpl.
  - by rewrite app_nil_r.
  - rewrite IH. destruct (p a); [|done].
    unfold push. by rewrite <- app_assoc.
Qed.

Lemma parse_valueArgs_sigil text fs f a :
  parse text = Ok fs -> f ∈ fs -> a ∈ valueArgs f -> startsWith DOLLAR a = true.
Proof.
  intros Hp Hf Ha.
  destruct (parse_elem _ _ _ Hp Hf) as (d & hdr & m & -> & _ & _ & Hd & _).
  unfold defOfMatch in Hd.
  destruct (group 1 m); simpl in Hd; try done.
  destruct (group 2 m); simpl in Hd; try done.
  injection Hd as Hd. rewrite <- Hd in Ha. simpl in Ha.
  apply list_elem_of_In, filter_In in Ha. tauto.
Qed.

Lemma otherName_filter cur fs :
  List.filter (otherName cur) fs
  = match cur with
    | Some cf =>
        List.filter (fun f => negb (bool_decide (name f = name cf))) fs
    | None => fs
    end.
Proof.
  destruct cur as [cf|]; simpl; [done|].
  induction fs as [|f fs IH]; simpl; [done|]. by rewrite IH.
Qed.

(** ** The example of the specification *)

Lemma filter_spans_line B text fs toks L :
  List.filter (fun sp => line (span_start sp) =? L)
    (omap (M:=list) (fun t => classifyToken B text fs t.1 t.2) toks)
  = omap (M:=list) (fun t => classifyToken B text fs t.1 t.2)
      (List.filter (fun t => line (positionAt text t.1) =? L) toks).
Proof.
  induction toks as [|[off w] toks IH]; [done|]. cbn [omap list_omap].
  cbn [List.filter fst snd].
  destruct (classifyToken B text fs off w) as [sp|] eqn:Hsp.
  - apply classifyToken_start in Hsp as Hst. destruct Hst as [Hst _].
    cbn [List.filter]. rewrite Hst.
    destruct (line (positionAt text off) =? L).
    + cbn [omap list_omap fst snd]. rewrite Hsp. by f_equal.
    + done.
  - destruct (line (positionAt text off) =? L); [|done].
    cbn [omap list_omap fst snd]. by rewrite Hsp.
Qed.

(** C2: the example text gives the records [foo] (lines 0 to 1, value
    argument [$a], filter argument [b]) and [bar] (lines 2 to 3, no
    arguments), in this order; line 3 holds the one token [foo], and the
    one span on line 3 is that token as a user function. *)
Theorem C2_example (BUILTINS : list str) :
  parse example_text = Ok [foo_record; bar_record] /\
  exists toks spans,
    tokensOf example_text = Ok toks /\
    classifyTokens BUILTINS example_text [foo_record; bar_record] = Ok spans /\
    List.filter (fun t => line (positionAt example_text t.1) =? 3) toks
    = [(36, js "foo")] /\
    List.filter (fun sp => line (span_start sp) =? 3) spans
    = [ {| span_start := {| line := 3; character := 2 |};
           span_length := 3;
           span_category := function_user |} ].
Proof.
  split; [by vm_compute|].
  destruct (tokensOf_total example_text) as (toks & Ht).
  exists toks. eexists. split; [done|].
  split; [by apply classifyTokens_ok|].
  assert (Hline : List.filter
            (fun t => line (positionAt example_text t.1) =? 3) toks
          = [(36, js "foo")]).
  { vm_compute in Ht. injection Ht as <-. by vm_compute. }
  split; [done|].
  rewrite filter_spans_line, Hline. by vm_compute.
Qed.

(** C4 as stated fails: the token [length] at offset 24 of [nested_text]
    is not on a comment line, lies in the range of the record [g], is a
    parameter of [g] and a built-in name, and gets no span: the first
    record whose range holds line 1 is [f]. *)
Lemma C4_counterexample :
  parse nested_text = Ok [nested_f; nested_g] /\
  (exists toks, tokensOf nested_text = Ok toks /\ (24, js "length") ∈ toks) /\
  isCommentLine (lineOf nested_text 24) = false /\
  nested_g ∈ [nested_f; nested_g] /\
  holdsLine nested_g (line (positionAt nested_text 24)) /\
  js "length" ∈ paramNames nested_g /\
  js "length" ∈ BUILTINS_v1 /\
  categoryOf BUILTINS_v1 nested_text [nested_f; nested_g] 24 (js "length")
  <> Some parameter.
Proof.
  split; [by vm_compute|]. split.
  { eexists. split; [by vm_compute|]. do 5 apply list_elem_of_further. by left. }
  split; [by vm_compute|]. split; [by right; left|].
  split; [by vm_compute|]. split; [by left|]. split; [by left|].
  by vm_compute.
Qed.

(** C9 as stated fails for one kind of unbalanced header: the line
    [unbalanced_text] has two opening parentheses and one closing
    parenthesis, matches the header pattern, and gives a record whose
    filter argument is the text between the first opening parenthesis and
    the closing one. *)
Lemma C9_counterexample :
  occurrences LPAREN unbalanced_text <> occurrences RPAREN unbalanced_text /\
  split_lines unbalanced_text = [unbalanced_text] /\
  is_Some (matchAt defRegex unbalanced_text) /\
  parse unbalanced_text = Ok [unbalanced_f].
Proof.
  split; [by vm_compute|]. split; [by vm_compute|].
  split; [by vm_compute; eexists|]. by vm_compute.
Qed.

(** ** The theorems at concrete inputs *)

Lemma C1_witness :
  parse example_text = Ok [foo_record; bar_record] /\
  foo_record ∈ [foo_record; bar_record] /\
  exists hdr,
    split_lines example_text !! startLine foo_record = Some hdr /\
    is_Some (matchAt defRegex hdr) /\
    ((exists j l, startLine foo_record < j /\
        split_lines example_text !! j = Some l /\
        closesExtent (leadingSpace hdr) l = true /\
        (forall k l', startLine foo_record < k < j ->
                      split_lines example_text !! k = Some l' ->
                      closesExtent (leadingSpace hdr) l' = false) /\
        S (endLine foo_record) = j)
     \/ ((forall k l', startLine foo_record < k ->
                       split_lines example_text !! k = Some l' ->
                       closesExtent (leadingSpace hdr) l' = false) /\
         S (endLine foo_record) = length (split_lines example_text))).
Proof.
  assert (H1 : parse example_text = Ok [foo_record; bar_record])
    by (vm_compute; reflexivity).
  assert (H2 : foo_record ∈ [foo_record; bar_record])
    by apply list_elem_of_here.
  split; [exact H1|]. split; [exact H2|].
  exact (C1_endLine_by_indentation example_text _ foo_record H1 H2).
Defined.


Lemma C5_witness :
  parse example_text = Ok [foo_record; bar_record] /\
  split_lines example_text !! 0 = Some (js "def foo($a; b):") /\
  js "def foo($a; b):"
  = headerLine [] (js " ") (js "foo") (Some (js "$a; b")) [] [] /\
  headerParts [] (js " ") (js "foo") (Some (js "$a; b")) [] /\
  exists r,
    List.filter (fun r => startLine r =? 0) [foo_record; bar_record] = [r] /\
    name r = js "foo" /\
    valueArgs r
    = List.filter (startsWith DOLLAR)
        (List.filter truthy (map trim (split_on SEMI (js "$a; b")))) /\
    filterArgs r
    = List.filter (fun a => negb (startsWith DOLLAR a))
        (List.filter truthy (map trim (split_on SEMI (js "$a; b")))).
Proof.
  assert (H1 : parse example_text = Ok [foo_record; bar_record])
    by (vm_compute; reflexivity).
  assert (H2 : split_lines example_text !! 0 = Some (js "def foo($a; b):"))
    by (vm_compute; reflexivity).
  assert (H3 : js "def foo($a; b):"
               = headerLine [] (js " ") (js "foo") (Some (js "$a; b")) [] [])
    by (vm_compute; reflexivity).
  assert (H4 : headerParts [] (js " ") (js "foo") (Some (js "$a; b")) []).
  { repeat split; first [reflexivity | discriminate]. }
  split; [exact H1|]. split; [exact H2|]. split; [exact H3|].
  split; [exact H4|].
  destruct (C5_header_record example_text _ 0 _ H1 H2) as [_ Hrec].
  exact (Hrec [] (js " ") (js "foo") (Some (js "$a; b")) [] [] H3 H4).
Defined.

Lemma C6_witness :
  tokensOf comment_text = Ok comment_tokens /\
  (4, js "length") ∈ comment_tokens /\
  isCommentLine (lineOf comment_text 4) = true /\
  classifyToken BUILTINS_v1 comment_text [] 4 (js "length") = None /\
  exists spans,
    classifyTokens BUILTINS_v1 comment_text [] = Ok spans /\
    forall sp, sp ∈ spans -> span_start sp <> positionAt comment_text 4.
Proof.
  assert (H1 : tokensOf comment_text = Ok comment_tokens)
    by (vm_compute; reflexivity).
  assert (H2 : (4, js "length") ∈ comment_tokens) by apply list_elem_of_here.
  assert (H3 : isCommentLine (lineOf comment_text 4) = true)
    by (vm_compute; reflexivity).
  split; [exact H1|]. split; [exact H2|]. split; [exact H3|].
  exact (C6_comment_lines_unclassified BUILTINS_v1 comment_text []
           comment_tokens 4 (js "length") H1 H2 H3).
Defined.

Lemma C7_witness :
  parse example_text = Ok [foo_record; bar_record] /\
  bar_record ∈ [foo_record; bar_record] /\
  startLine bar_record <= endLine bar_record /\
  endLine bar_record < length (split_lines example_text) /\
  exists hdr,
    split_lines example_text !! startLine bar_record = Some hdr /\
    ((forall k l, startLine bar_record < k ->
                  split_lines example_text !! k = Some l ->
                  closesExtent (leadingSpace hdr) l = false) ->
     endLine bar_record = length (split_lines example_text) - 1).
Proof.
  assert (H1 : parse example_text = Ok [foo_record; bar_record])
    by (vm_compute; reflexivity).
  assert (H2 : bar_record ∈ [foo_record; bar_record]).
  { apply list_elem_of_further, list_elem_of_here. }
  split; [exact H1|]. split; [exact H2|].
  exact (C7_extent_well_formed example_text _ bar_record H1 H2).
Defined.

Lemma C9_witness :
  parse unclosed_text = Ok [] /\ matchAt defRegex unclosed_text = None.
Proof.
  destruct (C9_parse_total unclosed_text) as (fs & Hp & Hnone & _ & Hunclosed).
  assert (Hm : matchAt defRegex unclosed_text = None).
  { apply (Hunclosed [] (js " ") (js "foo") (js "a: x"));
      [reflexivity|discriminate|reflexivity|reflexivity|].
    intros Hin. apply list_elem_of_In in Hin. vm_compute in Hin.
    repeat destruct Hin as [Hin|Hin]; try discriminate Hin. exact Hin. }
  split; [|exact Hm]. rewrite Hp. f_equal.
  destruct fs as [|r fs]; [reflexivity|]. exfalso.
  refine (Hnone 0 unclosed_text r _ Hm (list_elem_of_here _ _) _).
  - reflexivity.
  - vm_compute in Hp. discriminate Hp.
Defined.


(** * Further properties of the code *)

(** ** Records of the parser *)

Lemma collectDefs_sorted i0 lines defs :
  collectDefs i0 lines = Ok defs ->
  forall i j d1 d2, i < j -> defs !! i = Some d1 -> defs !! j = Some d2 ->
                    def_startLine d1 < def_startLine d2.
Proof.
  revert i0 defs. induction lines as [|l rest IH]; intros i0 defs; simpl.
  { intros [= <-] i j d1 d2 _ Hi. by rewrite lookup_nil in Hi. }
  destruct (matchAt defRegex l) as [m|] eqn:Hm; [|apply IH].
  destruct (defOfMatch_ok i0 l m Hm) as (d0 & Hd0 & Hs & _). rewrite Hd0.
  destruct (collectDefs (S i0) rest) as [defs'| | |] eqn:Hrest; simpl; try done.
  intros [= <-] i j d1 d2 Hij Hi Hj. destruct j as [|j]; [lia|].
  simpl in Hj. destruct i as [|i]; simpl in Hi.
  - injection Hi as <-. apply list_elem_of_lookup_2 in Hj.
    destruct (collectDefs_elem _ _ _ _ Hrest Hj) as (k & ? & ? & ? & _). lia.
  - apply (IH _ _ Hrest i j); [lia|done|done].
Qed.

Lemma parse_sorted text fs i j r1 r2 :
  parse text = Ok fs -> i < j -> fs !! i = Some r1 -> fs !! j = Some r2 ->
  startLine r1 < startLine r2.
Proof.
  unfold parse. intros Hp Hij Hi Hj.
  destruct (collectDefs 0 (split_lines text)) as [defs| | |] eqn:Hdefs;
    simpl in Hp; try done.
  injection Hp as <-. rewrite list_lookup_fmap in Hi, Hj.
  destruct (defs !! i) as [d1|] eqn:Hd1; [|done].
  destruct (defs !! j) as [d2|] eqn:Hd2; [|done].
  injection Hi as <-. injection Hj as <-. simpl.
  by apply (collectDefs_sorted _ _ _ Hdefs i j).
Qed.

(** X1: the records stand in the order of the document, one for a line:
    a record later in the list starts on a later line. *)
Theorem X1_records_in_document_order (text : str) (fs : list JQFunction)
    (i j : nat) (r1 r2 : JQFunction) :
  parse text = Ok fs -> i < j -> fs !! i = Some r1 -> fs !! j = Some r2 ->
  startLine r1 < startLine r2.
Proof. apply parse_sorted. Qed.

Lemma dropWhile_idem p s : dropWhile p (dropWhile p s) = dropWhile p s.
Proof.
  destruct (dropWhile p s) as [|c t] eqn:Hd; [done|].
  apply dropWhile_head in Hd. by apply dropWhile_stop.
Qed.

Lemma trim_idem s : trim (trim s) = trim s.
Proof.
  unfold trim, trimStart.
  assert (Hend : forall t, trimEnd (trimEnd t) = trimEnd t).
  { intros t. unfold trimEnd. by rewrite rev_involutive, dropWhile_idem. }
  assert (Hstart : dropWhile isSpace (trimEnd (dropWhile isSpace s))
                   = trimEnd (dropWhile isSpace s)).
  { destruct (dropWhile isSpace s) as [|x t] eqn:Hd; [done|].
    apply dropWhile_head in Hd. unfold trimEnd.
    change (rev (x :: t)) with (rev t ++ [x]).
    destruct (dropWhile_snoc_stop isSpace (rev t) x Hd) as (u & ->).
    rewrite rev_app_distr. by apply dropWhile_stop. }
  by rewrite Hstart, Hend.
Qed.

Lemma elem_of_rev_iff (x : N) (l : str) : x ∈ rev l <-> x ∈ l.
Proof. rewrite !list_elem_of_In. symmetry. apply in_rev. Qed.

Lemma elem_of_trim (x : N) s : x ∈ trim s -> x ∈ s.
Proof.
  unfold trim, trimEnd, trimStart. intros H.
  rewrite elem_of_rev_iff in H. apply elem_of_dropWhile in H.
  rewrite elem_of_rev_iff in H. by apply elem_of_dropWhile in H.
Qed.

Lemma elem_of_cons_first (p : str) c ls :
  p ∈ cons_first c ls ->
  (exists q, p = c :: q /\ (q ∈ ls \/ (ls = [] /\ q = []))) \/ p ∈ ls.
Proof.
  destruct ls as [|l ls]; simpl.
  - intros ->%list_elem_of_singleton. left. exists []. auto.
  - intros [->|H]%elem_of_cons.
    + left. exists l. split; [done|]. left. by left.
    + right. by right.
Qed.

Lemma split_on_nonempty sep s : split_on sep s <> [].
Proof.
  induction s as [|c s IH]; simpl; [done|].
  destruct (c =? sep)%N; [done|]. by destruct (split_on sep s).
Qed.

(** A piece holds no separator, and only units of the text. *)
Lemma elem_of_split_on sep s (p : str) :
  p ∈ split_on sep s -> (sep ∉ p) /\ forall x, x ∈ p -> x ∈ s.
Proof.
  revert p. induction s as [|c s IH]; intros p; simpl.
  { intros ->%list_elem_of_singleton. split; [apply not_elem_of_nil|done]. }
  destruct (c =? sep)%N eqn:Hc.
  - intros [->|H]%elem_of_cons.
    + split; [apply not_elem_of_nil|]. intros x Hx. by apply elem_of_nil in Hx.
    + destruct (IH p H) as [Hsep Hsub]. split; [done|].
      intros x Hx. right. auto.
  - apply N.eqb_neq in Hc.
    intros [(q & -> & [Hq|[Hnil _]])|H]%elem_of_cons_first.
    + destruct (IH q Hq) as [Hsep Hsub]. split.
      * intros [?|?]%elem_of_cons; [congruence|done].
      * intros x [->|Hx]%elem_of_cons; [by left|right; auto].
    + by apply split_on_nonempty in Hnil.
    + destruct (IH p H) as [Hsep Hsub]. split; [done|].
      intros x Hx. right. auto.
Qed.

Lemma defOfMatch_raw i l m d :
  matchAt defRegex l = Some m -> defOfMatch i m = Ok d ->
  exists nm raw,
    isIdentifier nm = true /\ def_name d = nm /\
    forallb notRParen raw = true /\
    def_valueArgs d = List.filter (startsWith DOLLAR) (splitArgs raw) /\
    def_filterArgs d
    = List.filter (fun a => negb (startsWith DOLLAR a)) (splitArgs raw).
Proof.
  rewrite matchAt_defRegex. intros Hm.
  destruct (headerMatch_shape l m Hm)
    as (ws & ws1 & nm & raw & ws2 & tail & -> & Hws & Hne & Hws1 & Hnm & Hraw & Hws2).
  rewrite headerMatch_headerLine in Hm by done. injection Hm as <-.
  unfold defOfMatch, group.
  destruct raw as [a|]; simpl; intros [= <-]; simpl.
  - by exists nm, a.
  - by exists nm, [].
Qed.

Lemma elem_of_splitArgs raw (a : str) :
  a ∈ splitArgs raw ->
  a <> [] /\ isTrimmed a /\ (SEMI ∉ a) /\ forall x, x ∈ a -> x ∈ raw.
Proof.
  unfold splitArgs. intros [Ha Ht]%list_elem_of_In%filter_In.
  apply list_elem_of_In, list_elem_of_fmap in Ha as (p & -> & Hp).
  destruct (elem_of_split_on _ _ _ Hp) as [Hsep Hsub].
  split; [by destruct (trim p)|]. split; [apply trim_idem|].
  split; [by intros H%elem_of_trim|]. intros x Hx%elem_of_trim. auto.
Qed.

Lemma forallb_not_elem (p : N -> bool) (raw : str) (c : N) :
  forallb p raw = true -> p c = false -> c ∉ raw.
Proof.
  intros Hall Hc Hin. apply list_elem_of_In in Hin.
  rewrite forallb_forall in Hall. specialize (Hall c Hin). congruence.
Qed.

(** X2: every value argument of a record starts with the sigil, no filter
    argument does, and every argument is non-empty, has no white space at
    its ends, and holds neither a semicolon nor a closing parenthesis. *)
Theorem X2_arguments_well_formed (text : str) (fs : list JQFunction)
    (r : JQFunction) (a : str) :
  parse text = Ok fs -> r ∈ fs -> a ∈ valueArgs r ++ filterArgs r ->
  (a ∈ valueArgs r <-> startsWith DOLLAR a = true) /\
  (a ∈ filterArgs r <-> startsWith DOLLAR a = false) /\
  a <> [] /\ isTrimmed a /\ (SEMI ∉ a) /\ (RPAREN ∉ a).
Proof.
  intros Hp Hr Ha.
  destruct (parse_elem _ _ _ Hp Hr) as (d & hdr & m & -> & _ & Hm & Hd & _).
  destruct (defOfMatch_raw _ _ _ _ Hm Hd) as (nm & raw & _ & _ & Hraw & Hv & Hf).
  cbn [valueArgs filterArgs closeDef] in *. rewrite Hv, Hf in *.
  assert (Hin : a ∈ splitArgs raw).
  { apply elem_of_app in Ha as [Ha|Ha];
      apply list_elem_of_In, filter_In in Ha as [Ha _];
      by apply list_elem_of_In. }
  destruct (elem_of_splitArgs _ _ Hin) as (Hne & Htrim & Hsemi & Hsub).
  split; [|split; [|split; [done|split; [done|split; [done|]]]]].
  - rewrite list_elem_of_In, filter_In, <- list_elem_of_In. tauto.
  - rewrite list_elem_of_In, filter_In, <- list_elem_of_In, negb_true_iff.
    tauto.
  - intros Hin'%Hsub. by apply (forallb_not_elem notRParen raw RPAREN).
Qed.

Lemma takeWhile_all p s : forallb p s = true -> takeWhile p s = s.
Proof.
  induction s as [|c s IH]; simpl; [done|].
  intros [-> Hs]%andb_true_iff. by rewrite IH.
Qed.

Lemma dropWhile_all_nil p s : forallb p s = true -> dropWhile p s = [].
Proof.
  induction s as [|c s IH]; simpl; [done|].
  intros [-> Hs]%andb_true_iff. auto.
Qed.

Lemma parse_name_identifier text fs r :
  parse text = Ok fs -> r ∈ fs -> isIdentifier (name r) = true.
Proof.
  intros Hp Hr.
  destruct (parse_elem _ _ _ Hp Hr) as (d & hdr & m & -> & _ & Hm & Hd & _).
  destruct (defOfMatch_raw _ _ _ _ Hm Hd) as (nm & raw & Hnm & Hname & _).
  simpl. by rewrite Hname.
Qed.

Lemma tokensOf_identifier w :
  isIdentifier w = true -> tokensOf w = Ok [(0, w)].
Proof.
  destruct w as [|c w]; [done|]. simpl.
  intros [Hc Hw]%andb_true_iff. unfold tokensOf.
  cbn [execAll search length]. rewrite matchAt_tokenRegex, Hc. cbn [m_rest].
  unfold matchedText. rewrite take_cons_takeWhile, takeWhile_all by done.
  rewrite dropWhile_all_nil by done.
  cbn [search]. by rewrite matchAt_tokenRegex.
Qed.

(** X3: the name of every record is an identifier, and the token loop
    reads it as one token: the pattern of the parser and the pattern of the
    token loop agree on names. *)
Theorem X3_names_are_tokens (text : str) (fs : list JQFunction)
    (r : JQFunction) :
  parse text = Ok fs -> r ∈ fs ->
  isIdentifier (name r) = true /\ tokensOf (name r) = Ok [(0, name r)].
Proof.
  intros Hp Hr. pose proof (parse_name_identifier _ _ _ Hp Hr) as Hn.
  split; [done|]. by apply tokensOf_identifier.
Qed.

(** ** Extents are nested or apart *)

Lemma header_not_skipped l m :
  matchAt defRegex l = Some m ->
  isBlankLine l = false /\ isCommentLine l = false.
Proof.
  rewrite matchAt_defRegex. unfold headerMatch.
  destruct (stripPrefix _ _) as [[|c s1]|] eqn:Hpre; [done| |done].
  intros _. apply stripPrefix_Some in Hpre.
  assert (Hd : startsWith 100 (trim l) = true).
  { unfold trim, trimStart. by rewrite startsWith_trimEnd, Hpre. }
  unfold isBlankLine, isCommentLine.
  destruct (trim l) as [|x t]; [done|]. simpl in *.
  apply N.eqb_eq in Hd as ->. done.
Qed.

Lemma closesExtent_header N l m :
  matchAt defRegex l = Some m ->
  closesExtent N l = (leadingSpace l <=? N).
Proof.
  intros [Hb Hc]%header_not_skipped. unfold closesExtent.
  by rewrite Hb, Hc.
Qed.

Lemma closesExtent_mono N N' l :
  closesExtent N l = true -> N <= N' -> closesExtent N' l = true.
Proof.
  unfold closesExtent. intros [Hs Hle%Nat.leb_le]%andb_true_iff HN.
  rewrite Hs. apply Nat.leb_le. lia.
Qed.

Lemma parse_laminar text fs r1 r2 :
  parse text = Ok fs -> r1 ∈ fs -> r2 ∈ fs ->
  startLine r1 < startLine r2 ->
  endLine r1 < startLine r2 \/ endLine r2 <= endLine r1.
Proof.
  intros Hp Hr1 Hr2 Hlt.
  destruct (parse_elem _ _ _ Hp Hr1) as (d1 & h1 & m1 & -> & Hh1 & Hm1 & _ & Hi1).
  destruct (parse_elem _ _ _ Hp Hr2) as (d2 & h2 & m2 & -> & Hh2 & Hm2 & _ & Hi2).
  set (lines := split_lines text) in *.
  change (startLine (closeDef lines d1)) with (def_startLine d1) in *.
  change (startLine (closeDef lines d2)) with (def_startLine d2) in *.
  destruct (closeDef_extent _ _ _ Hh1)
    as [(j1 & l1 & Hj1 & Hl1 & Hc1 & Hmin1 & He1)|[Hnone1 He1]];
    change (startLine (closeDef lines d1)) with (def_startLine d1) in *.
  2:{ right.
      destruct (closeDef_extent _ _ _ Hh2)
        as [(j2 & l2 & Hj2 & Hl2 & _ & _ & He2)|[_ He2]]; [|lia].
      apply lookup_lt_Some in Hl2. lia. }
  destruct (decide (j1 <= def_startLine d2)) as [Hle|Hgt]; [left; lia|].
  right.
  assert (HN : def_indent d1 < def_indent d2).
  { assert (Hnc : closesExtent (def_indent d1) h2 = false).
    { apply (Hmin1 (def_startLine d2)); [lia|done]. }
    rewrite (closesExtent_header _ _ _ Hm2) in Hnc.
    apply Nat.leb_gt in Hnc. lia. }
  assert (Hc2 : closesExtent (def_indent d2) l1 = true).
  { apply (closesExtent_mono (def_indent d1)); [done|lia]. }
  destruct (closeDef_extent _ _ _ Hh2)
    as [(j2 & l2 & Hj2 & Hl2 & _ & Hmin2 & He2)|[Hnone2 He2]];
    change (startLine (closeDef lines d2)) with (def_startLine d2) in *.
  - destruct (decide (j2 <= j1)) as [?|Hj]; [lia|].
    assert (closesExtent (def_indent d2) l1 = false)
      by (apply (Hmin2 j1); [lia|done]).
    congruence.
  - assert (closesExtent (def_indent d2) l1 = false)
      by (apply (Hnone2 j1); [lia|done]).
    congruence.
Qed.

Lemma parse_nested_deeper text fs r1 r2 h1 h2 :
  parse text = Ok fs -> r1 ∈ fs -> r2 ∈ fs ->
  split_lines text !! startLine r1 = Some h1 ->
  split_lines text !! startLine r2 = Some h2 ->
  startLine r1 < startLine r2 -> startLine r2 <= endLine r1 ->
  leadingSpace h1 < leadingSpace h2.
Proof.
  intros Hp Hr1 Hr2 H1 H2 Hlt Hin.
  destruct (parse_elem _ _ _ Hp Hr1) as (d1 & h1' & m1 & -> & Hh1 & Hm1 & _ & Hi1).
  destruct (parse_elem _ _ _ Hp Hr2) as (d2 & h2' & m2 & -> & Hh2 & Hm2 & _ & Hi2).
  set (lines := split_lines text) in *.
  change (startLine (closeDef lines d1)) with (def_startLine d1) in *.
  change (startLine (closeDef lines d2)) with (def_startLine d2) in *.
  assert (h1' = h1) as -> by congruence.
  assert (h2' = h2) as -> by congruence.
  assert (Hnc : closesExtent (def_indent d1) h2 = false).
  { destruct (closeDef_extent _ _ _ Hh1)
      as [(j1 & l1 & Hj1 & Hl1 & Hc1 & Hmin1 & He1)|[Hnone1 He1]];
      change (startLine (closeDef lines d1)) with (def_startLine d1) in *.
    - apply (Hmin1 (def_startLine d2)); [lia|done].
    - by apply (Hnone1 (def_startLine d2)). }
  rewrite (closesExtent_header _ _ _ Hm2) in Hnc.
  apply Nat.leb_gt in Hnc. lia.
Qed.

(** X4: the ranges of two records never cross: the record that starts
    later either starts after the end of the other or ends within it, and
    in the second case its header is indented more than the header of the
    other. *)
Theorem X4_extents_nested_or_apart (text : str) (fs : list JQFunction)
    (r1 r2 : JQFunction) (h1 h2 : str) :
  parse text = Ok fs -> r1 ∈ fs -> r2 ∈ fs ->
  split_lines text !! startLine r1 = Some h1 ->
  split_lines text !! startLine r2 = Some h2 ->
  startLine r1 < startLine r2 ->
  endLine r1 < startLine r2 \/
  (endLine r2 <= endLine r1 /\ leadingSpace h1 < leadingSpace h2).
Proof.
  intros Hp Hr1 Hr2 H1 H2 Hlt.
  destruct (decide (endLine r1 < startLine r2)) as [?|Hin]; [by left|right].
  split.
  - destruct (parse_laminar _ _ _ _ Hp Hr1 Hr2 Hlt); [lia|done].
  - apply (parse_nested_deeper _ _ _ _ _ _ Hp Hr1 Hr2 H1 H2 Hlt). lia.
Qed.

(** X5: the enclosing definition that [getContextFunction] finds for a line
    is the outermost one: the range of every record that holds the line
    lies within its range. *)
Theorem X5_context_is_outermost (text : str) (fs : list JQFunction)
    (l : nat) (f g : JQFunction) :
  parse text = Ok fs -> getContextFunction fs l = Some f ->
  g ∈ fs -> holdsLine g l ->
  startLine f <= startLine g /\ endLine g <= endLine f.
Proof.
  intros Hp (i & Hi & Hf & Hfirst)%getContextFunction_Some Hg Hgl.
  apply list_elem_of_lookup_1 in Hg as (j & Hj).
  destruct (decide (j < i)) as [Hlt|Hge].
  { by destruct (Hfirst j g Hlt Hj). }
  destruct (decide (j = i)) as [->|Hne].
  { rewrite Hi in Hj. injection Hj as <-. lia. }
  assert (Hs : startLine f < startLine g).
  { apply (parse_sorted _ _ i j _ _ Hp); [lia|done|done]. }
  destruct (parse_laminar text fs f g Hp) as [Hapart|Hnested]; try done.
  - by apply list_elem_of_lookup_2 in Hi.
  - by apply list_elem_of_lookup_2 in Hj.
  - destruct Hf, Hgl. lia.
  - lia.
Qed.

(** ** The token loop *)

Lemma takeWhile_of_dropWhile p s : takeWhile p (dropWhile p s) = [].
Proof.
  destruct (dropWhile p s) as [|c t] eqn:Hd; [done|].
  apply dropWhile_head in Hd. by apply takeWhile_stop.
Qed.

Lemma search_tokenRegex_Some s i j w rest :
  search tokenRegex s i = Some (j, w, rest) ->
  exists skip,
    s = skip ++ w ++ rest /\ j = i + length skip /\
    isIdentifier w = true /\
    forallb (fun c => negb (isIdentStart c)) skip = true /\
    takeWhile isIdentChar rest = [].
Proof.
  revert i. induction s as [|c s IH]; intros i; cbn [search].
  { by rewrite matchAt_tokenRegex. }
  rewrite matchAt_tokenRegex. destruct (isIdentStart c) eqn:Hc.
  - cbn [m_rest]. unfold matchedText. rewrite take_cons_takeWhile.
    intros [= <- <- <-]. exists []. simpl.
    rewrite takeWhile_dropWhile, Hc, forallb_takeWhile, takeWhile_of_dropWhile.
    repeat split; lia.
  - intros (skip & -> & -> & Hw & Hskip & Hrest)%IH. exists (c :: skip).
    simpl. rewrite Hc, Hskip. repeat split; [lia|done|done].
Qed.

Lemma search_tokenRegex_None s i :
  search tokenRegex s i = None ->
  forallb (fun c => negb (isIdentStart c)) s = true.
Proof.
  revert i. induction s as [|c s IH]; intros i; cbn [search]; [done|].
  rewrite matchAt_tokenRegex. destruct (isIdentStart c) eqn:Hc; [done|].
  intros H%IH. simpl. by rewrite Hc.
Qed.

Lemma execAll_tokenization fuel rest idx toks :
  execAll fuel tokenRegex rest idx = Ok toks -> tokenization idx rest toks.
Proof.
  revert rest idx toks.
  induction fuel as [|fuel IH]; intros rest idx toks; simpl; [done|].
  destruct (search tokenRegex rest idx) as [[[j w] rest']|] eqn:Hs.
  2:{ intros [= <-]. apply tokenization_end.
      by apply search_tokenRegex_None in Hs. }
  apply search_tokenRegex_Some in Hs as (skip & -> & -> & Hw & Hskip & Hrest).
  destruct (execAll fuel tokenRegex rest' _) as [more| | |] eqn:Hmore;
    simpl; try done.
  intros [= <-]. apply tokenization_token; try done. by apply IH.
Qed.

Lemma identifier_not_skipped w rest :
  isIdentifier w = true -> takeWhile isIdentChar (w ++ rest) <> [].
Proof.
  destruct w as [|c w]; [done|]. simpl. intros [Hc _]%andb_true_iff.
  by rewrite (identStart_identChar c Hc).
Qed.

Lemma tokenization_bounds idx rest toks t :
  tokenization idx rest toks -> t ∈ toks ->
  idx <= t.1 /\ (takeWhile isIdentChar rest = [] -> idx < t.1).
Proof.
  intros Htok. revert t.
  induction Htok
    as [idx rest Hall|idx skip w rest more Hskip Hw Hrest Htok IH]; intros t.
  { intros H. by apply elem_of_nil in H. }
  intros [->|Hin]%elem_of_cons; simpl.
  - split; [lia|]. destruct skip as [|c skip]; [|simpl; lia].
    intros H. exfalso. by apply (identifier_not_skipped w rest Hw).
  - destruct (IH t Hin) as [Hle _]. destruct w as [|c w]; [done|].
    simpl in Hle. split; [lia|]. intros _. lia.
Qed.

Lemma tokenization_sorted idx rest toks i j t1 t2 :
  tokenization idx rest toks -> i < j ->
  toks !! i = Some t1 -> toks !! j = Some t2 ->
  t1.1 + length t1.2 < t2.1.
Proof.
  intros Htok. revert i j.
  induction Htok
    as [idx rest Hall|idx skip w rest more Hskip Hw Hrest Htok IH];
    intros i j Hij Hi Hj.
  { by rewrite lookup_nil in Hi. }
  destruct j as [|j]; [lia|]. simpl in Hj. destruct i as [|i]; simpl in Hi.
  - injection Hi as <-. simpl. apply list_elem_of_lookup_2 in Hj.
    destruct (tokenization_bounds _ _ _ _ Htok Hj) as [_ Hlt]. by apply Hlt.
  - apply (IH i j); [lia|done|done].
Qed.

Lemma tokenization_elem idx rest toks off w :
  tokenization idx rest toks -> (off, w) ∈ toks ->
  exists pre post, rest = pre ++ w ++ post /\ off = idx + length pre /\
                   isIdentifier w = true /\ takeWhile isIdentChar post = [].
Proof.
  intros Htok. revert off w.
  induction Htok
    as [idx rest Hall|idx skip w0 rest more Hskip Hw Hrest Htok IH];
    intros off w.
  { intros H. by apply elem_of_nil in H. }
  intros [[= -> ->]|Hin]%elem_of_cons.
  - by exists skip, rest.
  - destruct (IH off w Hin) as (pre & post & -> & -> & Hw' & Hpost).
    exists (skip ++ w0 ++ pre), post. rewrite !length_app, <- !app_assoc.
    repeat split; [lia|done|done].
Qed.

Lemma tokenization_covers idx rest toks k c :
  tokenization idx rest toks -> rest !! k = Some c -> isIdentStart c = true ->
  exists off w, (off, w) ∈ toks /\ off <= idx + k < off + length w.
Proof.
  intros Htok. revert k.
  induction Htok
    as [idx rest Hall|idx skip w rest more Hskip Hw Hrest Htok IH];
    intros k Hk Hc.
  { apply list_elem_of_lookup_2, list_elem_of_In in Hk.
    rewrite forallb_forall in Hall. specialize (Hall c Hk).
    by rewrite Hc in Hall. }
  destruct (decide (k < length skip)) as [Hlt|Hge].
  { rewrite lookup_app_l in Hk by done.
    apply list_elem_of_lookup_2, list_elem_of_In in Hk.
    rewrite forallb_forall in Hskip. specialize (Hskip c Hk).
    by rewrite Hc in Hskip. }
  rewrite lookup_app_r in Hk by lia.
  destruct (decide (k - length skip < length w)) as [Hlt|Hge'].
  { exists (idx + length skip), w. split; [by left|lia]. }
  rewrite lookup_app_r in Hk by lia.
  destruct (IH _ Hk Hc) as (off & w' & Hin & Hrange).
  exists off, w'. split; [by right|lia].
Qed.

(** X6: every token of the token loop is an identifier that stands in the
    text at its index and ends where the next unit cannot continue it, and
    the tokens come in the order of the text with at least one unit between
    two of them. *)
Theorem X6_tokens_are_maximal_and_ordered (text : str)
    (toks : list (nat * str)) (i : nat) (off : nat) (w : str) :
  tokensOf text = Ok toks -> toks !! i = Some (off, w) ->
  (exists pre post,
     text = pre ++ w ++ post /\ length pre = off /\
     isIdentifier w = true /\ takeWhile isIdentChar post = []) /\
  (forall j off' w', i < j -> toks !! j = Some (off', w') ->
                     off + length w < off').
Proof.
  intros Ht%execAll_tokenization Hi. split.
  - apply list_elem_of_lookup_2 in Hi.
    destruct (tokenization_elem _ _ _ _ _ Ht Hi) as (pre & post & ? & ? & ? & ?).
    exists pre, post. by repeat split.
  - intros j off' w' Hij Hj.
    apply (tokenization_sorted _ _ _ i j (off, w) (off', w') Ht Hij Hi Hj).
Qed.

(** X7: the token loop misses no identifier: every unit of the text that
    can start an identifier lies in a token. *)
Theorem X7_tokens_cover_identifiers (text : str) (toks : list (nat * str))
    (k : nat) (c : N) :
  tokensOf text = Ok toks -> text !! k = Some c -> isIdentStart c = true ->
  exists off w, (off, w) ∈ toks /\ off <= k < off + length w.
Proof.
  intros Ht%execAll_tokenization Hk Hc.
  by apply (tokenization_covers 0 text toks k c).
Qed.

(** ** Lines *)

Lemma length_split_lines s :
  length (split_lines s) = S (occurrences LF s).
Proof.
  unfold occurrences. induction s as [|c s IH]; simpl; [done|].
  change (isChar LF c) with (c =? LF)%N.
  destruct (c =? LF)%N; simpl; [by rewrite IH|].
  destruct ((c =? CR)%N && startsWithLF s); [done|].
  rewrite length_cons_first; [done|apply split_lines_nonempty].
Qed.

Lemma split_lines_no_LF s (l : str) : l ∈ split_lines s -> LF ∉ l.
Proof.
  revert l. induction s as [|c s IH]; intros l; simpl.
  { intros ->%list_elem_of_singleton. apply not_elem_of_nil. }
  destruct (c =? LF)%N eqn:Hc.
  { intros [->|H]%elem_of_cons; [apply not_elem_of_nil|auto]. }
  destruct ((c =? CR)%N && startsWithLF s); [auto|].
  apply N.eqb_neq in Hc.
  intros [(q & -> & [Hq|[Hnil _]])|H]%elem_of_cons_first; [| |auto].
  - intros [?|?]%elem_of_cons; [congruence|]. by apply (IH q).
  - by apply split_lines_nonempty in Hnil.
Qed.

Lemma occurrences_take c n s : occurrences c (take n s) <= occurrences c s.
Proof.
  unfold occurrences. rewrite <- (take_drop n s) at 2.
  rewrite List.filter_app, length_app. lia.
Qed.

(** X9: the lines of the parser are one more than the line feeds of the
    text, none of them holds a line feed, and the line the host gives for
    an offset is always one of them. *)
Theorem X9_lines_of_parser_and_host (text : str) :
  length (split_lines text) = S (occurrences LF text) /\
  (forall l, l ∈ split_lines text -> LF ∉ l) /\
  (forall off, line (positionAt text off) < length (split_lines text)).
Proof.
  split; [apply length_split_lines|]. split; [apply split_lines_no_LF|].
  intros off. rewrite length_split_lines. unfold positionAt. cbn [line].
  pose proof (occurrences_take LF off text) as H. unfold occurrences in *.
  lia.
Qed.

(** ** [isInComment] away from tokens *)

Lemma isInComment_empty_line A' M R :
  forallb notLF M = true -> (R = [] \/ exists B, R = LF :: B) ->
  isInComment (A' ++ LF :: LF :: M ++ R) (Z.of_nat (S (length A')))
  = test commentRegex (LF :: M).
Proof.
  intros HM HR. unfold isInComment.
  set (text := A' ++ LF :: LF :: M ++ R).
  assert (Hlen : length text = length A' + 2 + length M + length R).
  { unfold text. rewrite length_app. simpl. rewrite length_app. lia. }
  assert (Hstart : (lastIndexOf text LF (Z.of_nat (S (length A')) - 1) + 1
                    = Z.of_nat (S (length A')))%Z).
  { unfold lastIndexOf, text.
    change (A' ++ LF :: LF :: M ++ R) with (A' ++ [LF] ++ LF :: M ++ R).
    rewrite lastIndexOf_from_app, (lastIndexOf_from_app _ _ [LF]).
    rewrite (lastIndexOf_from_beyond _ _ (LF :: M ++ R)) by (simpl; lia).
    simpl.
    replace (_ <=? _)%Z with true by (symmetry; apply Z.leb_le; lia).
    simpl. lia. }
  rewrite Hstart.
  assert (Hidx : indexOf text LF (Z.of_nat (S (length A')) + 1)
                 = match R with
                   | [] => (-1)%Z
                   | _ :: _ => Z.of_nat (length A' + 2 + length M)
                   end).
  { unfold indexOf, text.
    change (A' ++ LF :: LF :: M ++ R) with (A' ++ [LF; LF] ++ M ++ R).
    rewrite !app_assoc.
    rewrite indexOf_from_skip.
    - rewrite !length_app. simpl length.
      destruct HR as [->|(B & ->)]; [done|]. simpl.
      replace (_ <=? _)%Z with true by (symmetry; apply Z.leb_le; lia).
      simpl. lia.
    - intros k x Hk.
      destruct (decide (k < length (A' ++ [LF; LF]))) as [Hlt|Hge].
      + left. rewrite length_app in Hlt. simpl in Hlt. lia.
      + right. rewrite lookup_app_r in Hk by lia.
        by apply (notLF_lookup M _ x HM) in Hk. }
  rewrite Hidx. f_equal. unfold substring.
  set (hi := if (_ =? -1)%Z then _ else _).
  assert (Hhi : hi = Z.of_nat (length A' + 2 + length M)).
  { unfold hi. destruct HR as [->|(B & ->)]; simpl.
    - rewrite Hlen. simpl. f_equal. lia.
    - replace (_ =? -1)%Z with false; [done|].
      symmetry. apply Z.eqb_neq. lia. }
  rewrite Hhi, Hlen.
  replace (Z.min (Z.max (Z.of_nat (S (length A'))) 0) _)
    with (Z.of_nat (S (length A'))) by lia.
  replace (Z.min (Z.max (Z.of_nat (length A' + 2 + length M)) 0) _)
    with (Z.of_nat (length A' + 2 + length M)) by lia.
  replace (Z.min _ _) with (Z.of_nat (S (length A'))) by lia.
  replace (Z.max _ _) with (Z.of_nat (length A' + 2 + length M)) by lia.
  replace (Z.to_nat (_ - _)) with (S (length M)) by lia.
  rewrite Nat2Z.id. unfold text.
  change (A' ++ LF :: LF :: M ++ R) with (A' ++ [LF] ++ (LF :: M) ++ R).
  rewrite app_assoc.
  replace (S (length A')) with (length (A' ++ [LF]))
    by (rewrite length_app; simpl; lia).
  rewrite drop_app_length.
  replace (S (length M)) with (length (LF :: M)) by done.
  by rewrite take_app_length.
Qed.

(** X10: at an offset that stands on a line feed which directly follows
    another line feed (an empty line ended by LF alone), [isInComment]
    does not answer for that line, which is empty, but for the text up to
    the next line feed: the search for the end of the line starts one
    unit too far. *)
Theorem X10_isInComment_on_empty_line (A' M R : str) :
  forallb notLF M = true -> (R = [] \/ exists B, R = LF :: B) ->
  lineOf (A' ++ LF :: LF :: M ++ R) (S (length A')) = [] /\
  isInComment (A' ++ LF :: LF :: M ++ R) (Z.of_nat (S (length A')))
  = isCommentLine M.
Proof.
  intros HM HR. split.
  - unfold lineOf, positionAt. cbn [line].
    change (A' ++ LF :: LF :: M ++ R) with (A' ++ [LF] ++ LF :: M ++ R).
    rewrite app_assoc.
    replace (S (length A')) with (length (A' ++ [LF]))
      by (rewrite length_app; simpl; lia).
    rewrite take_app_length.
    destruct (split_lines_line (A' ++ [LF]) [] (LF :: M ++ R))
      as (l & Hl & Hcases); [right; by eexists|done|right; by eexists|].
    cbn [app] in Hl. fold (occurrences LF (A' ++ [LF])) in Hl |- *.
    unfold occurrences in *. rewrite (nth_lookup_Some _ _ _ _ Hl).
    destruct Hcases as [->|Hcr]; [done|]. by destruct l.
  - rewrite isInComment_empty_line, test_commentRegex by done.
    by rewrite isCommentLine_trimStart.
Qed.

(** ** Captures of a match *)

Lemma starK_inv p k s m :
  starK p k s = Some m -> exists s', k s' = Some m.
Proof.
  induction s as [|c s IH]; simpl; [by eexists|].
  destruct (p c); [|by eexists].
  destruct (starK p k s) as [r|] eqn:Hs; [|by eexists].
  intros [= <-]. by apply IH.
Qed.

(** A match reaches its continuation, with captures added only for the
    groups of the pattern. *)
Lemma rmatch_cont r :
  forall s caps k m,
    rmatch r s caps k = Some m ->
    exists s' ext,
      k s' (ext ++ caps) = Some m /\
      Forall (fun e => e.1 ∈ groupsOf r) ext.
Proof.
  induction r as [|p|r1 IH1 r2 IH2|p|r' IH|n r' IH]; intros s caps k m;
    cbn [rmatch groupsOf].
  - intros H. by exists s, [].
  - destruct s as [|c s]; [done|]. destruct (p c); [|done].
    intros H. by exists s, [].
  - intros (s1 & e1 & H1 & He1)%IH1.
    apply IH2 in H1 as (s2 & e2 & H2 & He2).
    exists s2, (e2 ++ e1). rewrite <- app_assoc. split; [done|].
    apply Forall_app. split.
    + eapply Forall_impl; [exact He2|]. intros e He. apply elem_of_app. auto.
    + eapply Forall_impl; [exact He1|]. intros e He. apply elem_of_app. auto.
  - intros (s' & H)%starK_inv. by exists s', [].
  - destruct (rmatch r' s caps k) as [x|] eqn:Hr.
    + intros [= <-]. by apply IH in Hr.
    + intros H. by exists s, [].
  - intros (s' & e & H & He)%IH.
    exists s', ((n, take (length s - length s') s) :: e). split; [done|].
    constructor; [by left|].
    eapply Forall_impl; [exact He|]. intros x Hx. by right.
Qed.

Lemma rmatch_cont_nogroups r s caps k m :
  groupsOf r = [] -> rmatch r s caps k = Some m ->
  exists s', k s' caps = Some m.
Proof.
  intros Hg (s' & ext & H & Hext)%rmatch_cont. rewrite Hg in Hext.
  destruct ext as [|e ext]; [by exists s'|].
  apply Forall_cons in Hext as [He _]. by apply elem_of_nil in He.
Qed.

(** ** The first version of the parser *)

Lemma V1_exec_inv r s m :
  V1.exec r s = Some m -> exists s', matchAt r s' = Some m.
Proof.
  induction s as [|c s IH]; cbn [V1.exec].
  - destruct (matchAt r []) eqn:Hm; [|done]. intros [= <-]. by eexists.
  - destruct (matchAt r (c :: s)) eqn:Hm; [intros [= <-]; by eexists|].
    apply IH.
Qed.

Lemma V1_group1 l m :
  V1.exec V1.defRegex l = Some m -> exists x, group 1 m = Ok x.
Proof.
  intros (s & Hm)%V1_exec_inv. unfold matchAt, V1.defRegex in Hm.
  rewrite rmatch_seqs_cons in Hm.
  apply rmatch_cont_nogroups in Hm as (s1 & Hm); [|done].
  rewrite rmatch_seqs_cons in Hm.
  apply rmatch_cont_nogroups in Hm as (s2 & Hm); [|done].
  rewrite rmatch_seqs_cons in Hm. cbn [rmatch] in Hm.
  apply (rmatch_cont_nogroups (Plus isIdentChar)) in Hm as (s3 & Hm); [|done].
  apply rmatch_cont in Hm as (s4 & ext & Hm & Hext).
  injection Hm as <-. unfold group, getCapture. cbn [m_caps].
  induction ext as [|[n y] ext IH]; cbn [app List.find fst].
  - simpl. by eexists.
  - apply Forall_cons in Hext as [Hn Hext]. cbn in Hn.
    assert (n = 2) as ->.
    { repeat (apply elem_of_cons in Hn as [Hn|Hn]; [done|]).
      by apply elem_of_nil in Hn. }
    cbn. by apply IH.
Qed.

Lemma V1_parseFrom_total n i ls : exists fs, V1.parseFrom n i ls = Ok fs.
Proof.
  revert i. induction ls as [|l rest IH]; intros i; cbn [V1.parseFrom].
  { by eexists. }
  destruct (V1.exec V1.defRegex l) as [m|] eqn:Hm; [|apply IH].
  destruct (V1_group1 l m Hm) as (x & ->).
  destruct (IH (S i)) as (more & ->). simpl. by eexists.
Qed.

Lemma V1_parseFrom_elem n i ls fs r :
  V1.parseFrom n i ls = Ok fs -> r ∈ fs ->
  exists k l,
    V1.startLine r = i + k /\ ls !! k = Some l /\
    is_Some (V1.exec V1.defRegex l) /\
    V1.endLine r = V1.findNextDef (i + k + 1) (drop (S k) ls) (n - 1).
Proof.
  revert i fs. induction ls as [|l rest IH]; intros i fs; cbn [V1.parseFrom].
  { intros [= <-] Hr. by apply elem_of_nil in Hr. }
  assert (Hlater : forall fs', V1.parseFrom n (S i) rest = Ok fs' -> r ∈ fs' ->
            exists k l0,
              V1.startLine r = i + k /\ (l :: rest) !! k = Some l0 /\
              is_Some (V1.exec V1.defRegex l0) /\
              V1.endLine r
              = V1.findNextDef (i + k + 1) (drop (S k) (l :: rest)) (n - 1)).
  { intros fs' Hfs Hr. destruct (IH _ _ Hfs Hr) as (k & l0 & ? & ? & ? & ?).
    exists (S k), l0. repeat split; [lia|done|done|].
    etransitivity; [eassumption|]. cbn [drop]. f_equal. lia. }
  destruct (V1.exec V1.defRegex l) as [m|] eqn:Hm; [|apply Hlater].
  destruct (V1_group1 l m Hm) as (x & ->). simpl.
  destruct (V1.parseFrom n (S i) rest) as [more| | |] eqn:Hmore; simpl;
    try done.
  intros [= <-] [->|Hr]%elem_of_cons; [|by apply (Hlater more)].
  exists 0, l. cbn. rewrite Nat.add_0_r. by repeat split.
Qed.

Lemma test_defStartRegex l : test V1.defStartRegex l = startsDefinition l.
Proof.
  unfold test, matchAt, V1.defStartRegex, startsDefinition.
  rewrite rmatch_seqs_cons. cbn [rmatch]. rewrite starK_greedy.
  2:{ intros c s' Hc. rewrite rmatch_seqs_cons. unfold Lit.
      rewrite rmatch_lit. change (js "def") with [100; 101; 102]%N.
      cbn [stripPrefix]. by rewrite (space_not_char c 100%N). }
  rewrite rmatch_seqs_cons. unfold Lit. rewrite rmatch_lit.
  destruct (stripPrefix (js "def") (dropWhile isSpace l)) as [[|c s1]|];
    [done| |done].
  rewrite rmatch_seqs_cons. cbn [rmatch Plus].
  destruct (isSpace c); [|done].
  by rewrite (starK_some _ _ _ _ eq_refl).
Qed.

Lemma V1_findNextDef_cases j ls dflt :
  (exists k l, ls !! k = Some l /\ startsDefinition l = true /\
     (forall k' l', k' < k -> ls !! k' = Some l' ->
                    startsDefinition l' = false) /\
     V1.findNextDef j ls dflt = j + k - 1)
  \/ ((forall k l, ls !! k = Some l -> startsDefinition l = false) /\
      V1.findNextDef j ls dflt = dflt).
Proof.
  revert j. induction ls as [|l ls IH]; intros j.
  { right. split; [|done]. intros k l Hk. by rewrite lookup_nil in Hk. }
  cbn [V1.findNextDef]. rewrite test_defStartRegex.
  destruct (startsDefinition l) eqn:Hl.
  - left. exists 0, l. repeat split; [done| |f_equal; lia]. intros; lia.
  - destruct (IH (S j)) as [(k & l0 & Hk & Hc & Hbefore & Hend)|[Hnone Hend]].
    + left. exists (S k), l0. repeat split; [done|done| |lia].
      intros [|k'] l' Hlt; simpl; [by intros [= <-]|].
      apply Hbefore. lia.
    + right. split; [|done]. intros [|k] l'; simpl; [by intros [= <-]|].
      apply Hnone.
Qed.

(** The extent of a record of the first parser. *)
Lemma V1_parse_extent text fs r :
  V1.parse text = Ok fs -> r ∈ fs ->
  let lines := split_lines text in
  V1.startLine r < length lines /\
  ((exists j l, V1.startLine r < j /\ lines !! j = Some l /\
      startsDefinition l = true /\
      (forall k l', V1.startLine r < k < j -> lines !! k = Some l' ->
                    startsDefinition l' = false) /\
      S (V1.endLine r) = j)
   \/ ((forall k l', V1.startLine r < k -> lines !! k = Some l' ->
                     startsDefinition l' = false) /\
       S (V1.endLine r) = length lines)).
Proof.
  intros Hp Hr. cbv zeta. unfold V1.parse in Hp. cbv zeta in Hp.
  set (lines := split_lines text) in *.
  destruct (V1_parseFrom_elem _ _ _ _ _ Hp Hr) as (s & hdr & Hs & Hh & _ & He).
  simpl in Hs. rewrite Hs, He. simpl.
  apply lookup_lt_Some in Hh as Hlen. split; [done|].
  destruct (V1_findNextDef_cases (s + 1) (drop (S s) lines) (length lines - 1))
    as [(k & l & Hk & Hc & Hbefore & Hend)|[Hnone Hend]]; rewrite Hend.
  - left. rewrite lookup_drop in Hk. exists (S s + k), l.
    repeat split; [lia|done|done| |lia].
    intros k' l' [Hlo Hhi] Hk'. apply (Hbefore (k' - S s)); [lia|].
    rewrite lookup_drop. by replace (S s + (k' - S s)) with k' by lia.
  - right. split; [|lia]. intros k l' Hlo Hk.
    apply (Hnone (k - S s)). rewrite lookup_drop.
    by replace (S s + (k - S s)) with k by lia.
Qed.

(** X13: in the first parser the extent of a record ends one line before
    the next line that starts, after white space, with [def] and a white
    space, whether or not that line is a header, and at the last line when
    there is none; the start line is never after the end line. *)
Theorem X13_first_parser_extent (text : str) (fs : list V1.JQFunction)
    (r : V1.JQFunction) :
  V1.parse text = Ok fs -> r ∈ fs ->
  V1.startLine r <= V1.endLine r /\
  V1.endLine r < length (split_lines text) /\
  ((exists j l, V1.startLine r < j /\ split_lines text !! j = Some l /\
      startsDefinition l = true /\
      (forall k l', V1.startLine r < k < j ->
                    split_lines text !! k = Some l' ->
                    startsDefinition l' = false) /\
      S (V1.endLine r) = j)
   \/ ((forall k l', V1.startLine r < k ->
                     split_lines text !! k = Some l' ->
                     startsDefinition l' = false) /\
       S (V1.endLine r) = length (split_lines text))).
Proof.
  intros Hp Hr. destruct (V1_parse_extent _ _ _ Hp Hr) as [Hlen Hcases].
  assert (Hbounds : V1.startLine r <= V1.endLine r /\
                    V1.endLine r < length (split_lines text)).
  { destruct Hcases as [(j & l & Hj & Hl & _ & _ & He)|[_ He]]; [|lia].
    apply lookup_lt_Some in Hl. lia. }
  destruct Hbounds. by repeat split.
Qed.

(** X14: in the first parser the ranges of two records are apart or end on
    the same line. *)
Theorem X14_first_parser_ranges (text : str) (fs : list V1.JQFunction)
    (r1 r2 : V1.JQFunction) :
  V1.parse text = Ok fs -> r1 ∈ fs -> r2 ∈ fs ->
  V1.startLine r1 < V1.startLine r2 ->
  V1.endLine r1 < V1.startLine r2 \/ V1.endLine r2 = V1.endLine r1.
Proof.
  intros Hp Hr1 Hr2 Hlt.
  destruct (V1_parse_extent _ _ _ Hp Hr1)
    as [_ [(j1 & l1 & Hj1 & Hl1 & Hd1 & Hmin1 & He1)|[Hnone1 He1]]];
    destruct (V1_parse_extent _ _ _ Hp Hr2)
      as [_ [(j2 & l2 & Hj2 & Hl2 & Hd2 & Hmin2 & He2)|[Hnone2 He2]]].
  - destruct (decide (j1 <= V1.startLine r2)) as [?|Hgt]; [left; lia|right].
    destruct (decide (j1 = j2)) as [?|Hne]; [lia|].
    destruct (decide (j1 < j2)) as [H12|H21].
    + assert (startsDefinition l1 = false)
        by (apply (Hmin2 j1); [lia|done]).
      congruence.
    + assert (startsDefinition l2 = false)
        by (apply (Hmin1 j2); [lia|done]).
      congruence.
  - destruct (decide (j1 <= V1.startLine r2)) as [?|Hgt]; [left; lia|].
    assert (startsDefinition l1 = false) by (apply (Hnone2 j1); [lia|done]).
    congruence.
  - assert (startsDefinition l2 = false) by (apply (Hnone1 j2); [lia|done]).
    congruence.
  - right. lia.
Qed.

(** ** The further theorems at concrete inputs *)

Lemma X1_witness :
  parse example_text = Ok [foo_record; bar_record] /\
  0 < 1 /\
  [foo_record; bar_record] !! 0 = Some foo_record /\
  [foo_record; bar_record] !! 1 = Some bar_record /\
  startLine foo_record < startLine bar_record.
Proof.
  assert (H1 : parse example_text = Ok [foo_record; bar_record])
    by (vm_compute; reflexivity).
  assert (H2 : 0 < 1) by lia.
  split; [exact H1|]. split; [exact H2|].
  split; [reflexivity|]. split; [reflexivity|].
  exact (X1_records_in_document_order example_text _ 0 1 foo_record
           bar_record H1 H2 eq_refl eq_refl).
Defined.

Lemma X2_witness :
  parse example_text = Ok [foo_record; bar_record] /\
  foo_record ∈ [foo_record; bar_record] /\
  js "$a" ∈ valueArgs foo_record ++ filterArgs foo_record /\
  (js "$a" ∈ valueArgs foo_record <-> startsWith DOLLAR (js "$a") = true) /\
  (js "$a" ∈ filterArgs foo_record <-> startsWith DOLLAR (js "$a") = false) /\
  js "$a" <> [] /\ isTrimmed (js "$a") /\ (SEMI ∉ js "$a") /\
  (RPAREN ∉ js "$a").
Proof.
  assert (H1 : parse example_text = Ok [foo_record; bar_record])
    by (vm_compute; reflexivity).
  assert (H2 : foo_record ∈ [foo_record; bar_record])
    by apply list_elem_of_here.
  assert (H3 : js "$a" ∈ valueArgs foo_record ++ filterArgs foo_record)
    by apply list_elem_of_here.
  split; [exact H1|]. split; [exact H2|]. split; [exact H3|].
  exact (X2_arguments_well_formed example_text _ foo_record (js "$a")
           H1 H2 H3).
Defined.

Lemma X3_witness :
  parse example_text = Ok [foo_record; bar_record] /\
  foo_record ∈ [foo_record; bar_record] /\
  isIdentifier (name foo_record) = true /\
  tokensOf (name foo_record) = Ok [(0, name foo_record)].
Proof.
  assert (H1 : parse example_text = Ok [foo_record; bar_record])
    by (vm_compute; reflexivity).
  assert (H2 : foo_record ∈ [foo_record; bar_record])
    by apply list_elem_of_here.
  split; [exact H1|]. split; [exact H2|].
  exact (X3_names_are_tokens example_text _ foo_record H1 H2).
Defined.

Lemma X4_witness :
  parse nested_text = Ok [nested_f; nested_g] /\
  nested_f ∈ [nested_f; nested_g] /\ nested_g ∈ [nested_f; nested_g] /\
  split_lines nested_text !! startLine nested_f = Some (js "def f:") /\
  split_lines nested_text !! startLine nested_g
  = Some (js "  def g(length): length") /\
  startLine nested_f < startLine nested_g /\
  (endLine nested_f < startLine nested_g \/
   (endLine nested_g <= endLine nested_f /\
    leadingSpace (js "def f:")
    < leadingSpace (js "  def g(length): length"))).
Proof.
  assert (H1 : parse nested_text = Ok [nested_f; nested_g])
    by (vm_compute; reflexivity).
  assert (H2 : nested_f ∈ [nested_f; nested_g]) by apply list_elem_of_here.
  assert (H3 : nested_g ∈ [nested_f; nested_g]).
  { apply list_elem_of_further, list_elem_of_here. }
  assert (H4 : split_lines nested_text !! startLine nested_f
               = Some (js "def f:")) by (vm_compute; reflexivity).
  assert (H5 : split_lines nested_text !! startLine nested_g
               = Some (js "  def g(length): length"))
    by (vm_compute; reflexivity).
  assert (H6 : startLine nested_f < startLine nested_g) by (vm_compute; lia).
  repeat (split; [assumption|]).
  exact (X4_extents_nested_or_apart nested_text _ nested_f nested_g _ _
           H1 H2 H3 H4 H5 H6).
Defined.

Lemma X5_witness :
  parse nested_text = Ok [nested_f; nested_g] /\
  getContextFunction [nested_f; nested_g] 1 = Some nested_f /\
  nested_g ∈ [nested_f; nested_g] /\ holdsLine nested_g 1 /\
  startLine nested_f <= startLine nested_g /\
  endLine nested_g <= endLine nested_f.
Proof.
  assert (H1 : parse nested_text = Ok [nested_f; nested_g])
    by (vm_compute; reflexivity).
  assert (H2 : getContextFunction [nested_f; nested_g] 1 = Some nested_f)
    by reflexivity.
  assert (H3 : nested_g ∈ [nested_f; nested_g]).
  { apply list_elem_of_further, list_elem_of_here. }
  assert (H4 : holdsLine nested_g 1) by (split; vm_compute; lia).
  repeat (split; [assumption|]).
  exact (X5_context_is_outermost nested_text _ 1 nested_f nested_g
           H1 H2 H3 H4).
Defined.

Lemma X6_witness :
  tokensOf example_text = Ok example_tokens /\
  example_tokens !! 1 = Some (4, js "foo") /\
  (exists pre post,
     example_text = pre ++ js "foo" ++ post /\ length pre = 4 /\
     isIdentifier (js "foo") = true /\ takeWhile isIdentChar post = []) /\
  (forall j off' w', 1 < j -> example_tokens !! j = Some (off', w') ->
                     4 + length (js "foo") < off').
Proof.
  assert (H1 : tokensOf example_text = Ok example_tokens)
    by (vm_compute; reflexivity).
  assert (H2 : example_tokens !! 1 = Some (4, js "foo")) by reflexivity.
  split; [exact H1|]. split; [exact H2|].
  exact (X6_tokens_are_maximal_and_ordered example_text example_tokens 1 4
           (js "foo") H1 H2).
Defined.

Lemma X7_witness :
  tokensOf example_text = Ok example_tokens /\
  example_text !! 36 = Some 102%N /\ isIdentStart 102 = true /\
  exists off w, (off, w) ∈ example_tokens /\ off <= 36 < off + length w.
Proof.
  assert (H1 : tokensOf example_text = Ok example_tokens)
    by (vm_compute; reflexivity).
  assert (H2 : example_text !! 36 = Some 102%N) by (vm_compute; reflexivity).
  assert (H3 : isIdentStart 102 = true) by reflexivity.
  repeat (split; [assumption|]).
  exact (X7_tokens_cover_identifiers example_text example_tokens 36 102%N
           H1 H2 H3).
Defined.

Lemma X10_witness :
  forallb notLF (js "# note") = true /\
  lineOf empty_line_text 1 = [] /\
  isInComment empty_line_text 1 = isCommentLine (js "# note") /\
  isCommentLine (js "# note") = true.
Proof.
  assert (H1 : forallb notLF (js "# note") = true) by reflexivity.
  destruct (X10_isInComment_on_empty_line [] (js "# note") [] H1
              (or_introl eq_refl)) as [Hline Hcomment].
  split; [exact H1|]. split; [exact Hline|]. split; [exact Hcomment|].
  reflexivity.
Defined.

Lemma X13_witness :
  V1.parse example_text = Ok [v1_f; v1_g] /\
  v1_f ∈ [v1_f; v1_g] /\
  V1.startLine v1_f <= V1.endLine v1_f /\
  V1.endLine v1_f < length (split_lines example_text) /\
  ((exists j l, V1.startLine v1_f < j /\
      split_lines example_text !! j = Some l /\
      startsDefinition l = true /\
      (forall k l', V1.startLine v1_f < k < j ->
                    split_lines example_text !! k = Some l' ->
                    startsDefinition l' = false) /\
      S (V1.endLine v1_f) = j)
   \/ ((forall k l', V1.startLine v1_f < k ->
                     split_lines example_text !! k = Some l' ->
                     startsDefinition l' = false) /\
       S (V1.endLine v1_f) = length (split_lines example_text))).
Proof.
  assert (H1 : V1.parse example_text = Ok [v1_f; v1_g])
    by (vm_compute; reflexivity).
  assert (H2 : v1_f ∈ [v1_f; v1_g]) by apply list_elem_of_here.
  split; [exact H1|]. split; [exact H2|].
  exact (X13_first_parser_extent example_text _ v1_f H1 H2).
Defined.

Lemma X14_witness :
  V1.parse example_text = Ok [v1_f; v1_g] /\
  v1_f ∈ [v1_f; v1_g] /\ v1_g ∈ [v1_f; v1_g] /\
  V1.startLine v1_f < V1.startLine v1_g /\
  (V1.endLine v1_f < V1.startLine v1_g \/ V1.endLine v1_g = V1.endLine v1_f).
Proof.
  assert (H1 : V1.parse example_text = Ok [v1_f; v1_g])
    by (vm_compute; reflexivity).
  assert (H2 : v1_f ∈ [v1_f; v1_g]) by apply list_elem_of_here.
  assert (H3 : v1_g ∈ [v1_f; v1_g]).
  { apply list_elem_of_further, list_elem_of_here. }
  assert (H4 : V1.startLine v1_f < V1.startLine v1_g) by (vm_compute; lia).
  repeat (split; [assumption|]).
  exact (X14_first_parser_ranges example_text _ v1_f v1_g H1 H2 H3 H4).
Defined.

(** * Spans in the result of the token loop *)

Lemma filter_LF_nil (s : str) :
  List.filter (isChar LF) s = [] -> forallb notLF s = true.
Proof.
  induction s as [|c s IH]; simpl; [done|]. unfold notLF, isChar.
  destruct (c =? LF)%N; [done|]. auto.
Qed.

Lemma forallb_rev (p : N -> bool) (s : str) :
  forallb p s = true -> forallb p (rev s) = true.
Proof.
  rewrite !forallb_forall. intros H x Hx. apply H. by apply in_rev.
Qed.

Lemma positionAt_inj_le text a b :
  a <= b -> b <= length text ->
  positionAt text a = positionAt text b -> a = b.
Proof.
  intros Hab Hb. unfold positionAt.
  replace b with (a + (b - a)) at 1 2 by lia.
  rewrite <- (take_take_drop text a (b - a)).
  set (A := take a text). set (mid := take (b - a) (drop a text)).
  assert (Hmid : length mid = b - a).
  { unfold mid. rewrite length_take, length_drop. lia. }
  intros [= Hline Hchar].
  rewrite List.filter_app, length_app in Hline.
  assert (Hnil : List.filter (isChar LF) mid = []).
  { destruct (List.filter (isChar LF) mid); [done|]. simpl in Hline. lia. }
  apply filter_LF_nil, forallb_rev in Hnil.
  rewrite rev_app_distr, takeWhile_app_all, length_app, length_rev in Hchar
    by done.
  lia.
Qed.

Lemma positionAt_inj text a b :
  a <= length text -> b <= length text ->
  positionAt text a = positionAt text b -> a = b.
Proof.
  intros Ha Hb Heq. destruct (decide (a <= b)).
  - by apply (positionAt_inj_le text).
  - symmetry. apply (positionAt_inj_le text); [lia|done|done].
Qed.

Lemma token_offset_le text toks off w :
  tokensOf text = Ok toks -> (off, w) ∈ toks -> off <= length text.
Proof.
  intros Ht Hin.
  destruct (tokensOf_elem _ _ _ _ Ht Hin) as (pre & post & -> & <- & _).
  rewrite length_app. lia.
Qed.

Lemma token_unique text toks off w w' :
  tokensOf text = Ok toks -> (off, w) ∈ toks -> (off, w') ∈ toks -> w = w'.
Proof.
  intros Ht%execAll_tokenization (i & Hi)%list_elem_of_lookup_1
    (j & Hj)%list_elem_of_lookup_1.
  destruct (decide (i = j)) as [->|Hne]; [congruence|].
  destruct (decide (i < j)).
  - pose proof (tokenization_sorted _ _ _ i j _ _ Ht ltac:(lia) Hi Hj).
    simpl in *. lia.
  - pose proof (tokenization_sorted _ _ _ j i _ _ Ht ltac:(lia) Hj Hi).
    simpl in *. lia.
Qed.

(** The spans of the result that start where a token stands are what the
    turn of the loop for that token pushes. *)
Lemma classifyTokens_at B text fs toks off w :
  tokensOf text = Ok toks -> (off, w) ∈ toks ->
  exists spans,
    classifyTokens B text fs = Ok spans /\
    forall sp, (sp ∈ spans /\ span_start sp = positionAt text off)
               <-> classifyToken B text fs off w = Some sp.
Proof.
  intros Ht Hin. eexists. split; [by apply classifyTokens_ok|].
  intros sp. rewrite list_elem_of_omap. split.
  - intros [([off' w'] & Hin' & Hsp) Hstart]. simpl in Hsp.
    apply classifyToken_start in Hsp as Hsp'. destruct Hsp' as [Hst _].
    assert (off' = off) as ->.
    { apply (positionAt_inj text); [by eapply token_offset_le..|congruence]. }
    by rewrite (token_unique _ _ _ _ _ Ht Hin Hin').
  - intros Hsp. split; [by exists (off, w)|].
    by apply classifyToken_start in Hsp as [? _].
Qed.

Lemma classifyToken_category B text fs off w :
  classifyToken B text fs off w
  = spanAt text off w <$> categoryOf B text fs off w.
Proof.
  unfold categoryOf, classifyToken, spanAt.
  repeat match goal with
         | |- context [if ?b then _ else _] => destruct b
         end; done.
Qed.

(** C4, as the code has it: a token that is not on a comment line, whose
    line has an enclosing definition (the first record whose range holds
    the line) and whose text is a parameter name of that definition and
    also a built-in name, is classified as parameter: the result of
    [classifyTokens] holds, at the position of the token, the parameter
    span of the token and no other span. *)
Theorem C4_parameter_priority (BUILTINS : list str) (text : str)
    (fs : list JQFunction) (toks : list (nat * str)) (g : JQFunction)
    (off : nat) (w : str) :
  parse text = Ok fs -> tokensOf text = Ok toks -> (off, w) ∈ toks ->
  isCommentLine (lineOf text off) = false ->
  enclosing fs (line (positionAt text off)) g ->
  w ∈ paramNames g -> w ∈ BUILTINS ->
  categoryOf BUILTINS text fs off w = Some parameter /\
  exists spans,
    classifyTokens BUILTINS text fs = Ok spans /\
    forall sp, (sp ∈ spans /\ span_start sp = positionAt text off)
               <-> sp = spanAt text off w parameter.
Proof.
  intros _ Ht Hin Hc Hg Hw _.
  assert (Hcat : categoryOf BUILTINS text fs off w = Some parameter).
  { unfold categoryOf, classifyToken.
    rewrite (isInComment_token _ _ _ _ Ht Hin), Hc.
    apply getContextFunction_Some in Hg. rewrite Hg.
    apply isParam_paramNames in Hw. by rewrite Hw. }
  split; [done|].
  destruct (classifyTokens_at BUILTINS text fs toks off w Ht Hin)
    as (spans & Hspans & Hat).
  exists spans. split; [done|]. intros sp.
  rewrite Hat, classifyToken_category, Hcat. simpl. split; congruence.
Qed.

(** C10: whether a token is skipped as a comment depends only on whether
    the trimmed line starts with [#]; on every other line, whatever stands
    before the token, the token is classified by the priority rules: the
    result of [classifyTokens] holds, at the position of the token, the
    span of the category the rules give, and no span when they give
    none. *)
Theorem C10_only_leading_hash_excludes (BUILTINS : list str) (text : str)
    (fs : list JQFunction) (toks : list (nat * str)) (off : nat) (w : str) :
  tokensOf text = Ok toks -> (off, w) ∈ toks ->
  isInComment text (Z.of_nat off) = isCommentLine (lineOf text off) /\
  (isCommentLine (lineOf text off) = false ->
   exists spans oc,
     classifyTokens BUILTINS text fs = Ok spans /\
     classifiedAs BUILTINS fs (line (positionAt text off)) w oc /\
     categoryOf BUILTINS text fs off w = oc /\
     forall sp, (sp ∈ spans /\ span_start sp = positionAt text off)
                <-> Some sp = spanAt text off w <$> oc).
Proof.
  intros Ht Hin. pose proof (isInComment_token _ _ _ _ Ht Hin) as Hc.
  split; [done|]. intros Hn.
  destruct (classifyTokens_at BUILTINS text fs toks off w Ht Hin)
    as (spans & Hspans & Hat).
  exists spans, (categoryOf BUILTINS text fs off w).
  split; [done|]. split; [apply categoryOf_rules; congruence|].
  split; [done|]. intros sp. rewrite Hat, classifyToken_category.
  split; congruence.
Qed.

(** X8: outside comment lines every token that names one of the
    definitions has a span in the result of [classifyTokens], at its
    position and of its length, as a parameter or as a user function; the
    built-in list cannot take it away. *)
Theorem X8_defined_names_get_a_span (BUILTINS : list str) (text : str)
    (fs : list JQFunction) (toks : list (nat * str)) (off : nat) (w : str)
    (f : JQFunction) :
  tokensOf text = Ok toks -> (off, w) ∈ toks ->
  f ∈ fs -> name f = w -> isCommentLine (lineOf text off) = false ->
  exists spans sp,
    classifyTokens BUILTINS text fs = Ok spans /\ sp ∈ spans /\
    span_start sp = positionAt text off /\ span_length sp = length w /\
    (span_category sp = parameter \/ span_category sp = function_user).
Proof.
  intros Ht Hin Hf Hname Hc.
  destruct (classifyTokens_at BUILTINS text fs toks off w Ht Hin)
    as (spans & Hspans & Hat).
  assert (Hsp : exists sp,
    classifyToken BUILTINS text fs off w = Some sp /\
    span_length sp = length w /\
    (span_category sp = parameter \/ span_category sp = function_user)).
  { unfold classifyToken.
    rewrite (isInComment_token _ _ _ _ Ht Hin), Hc.
    destruct (match getContextFunction fs _ with
              | Some cf => _ | None => _ end).
    { eexists. split; [done|]. simpl. auto. }
    assert (Hu : bool_decide (w ∈ userFuncNames fs) = true).
    { apply bool_decide_eq_true, elem_of_userFuncNames. by exists f. }
    rewrite Hu. eexists. split; [done|]. simpl. auto. }
  destruct Hsp as (sp & Hsp & Hlen & Hcat).
  apply Hat in Hsp as [Hmem Hstart]. by exists spans, sp.
Qed.

(** * The completion list *)

Lemma translate_back position :
  0 < character position ->
  translate position 0 (-1)
  = Ok {| line := line position; character := character position - 1 |}.
Proof.
  intros Hc. unfold translate. cbn [Z.eqb andb].
  destruct (Z.ltb_spec (Z.of_nat (line position) + 0) 0); [lia|].
  destruct (Z.ltb_spec (Z.of_nat (character position) + -1) 0); [lia|].
  cbn [orb]. do 2 f_equal; lia.
Qed.

Lemma translate_back_column_0 position :
  character position = 0 -> translate position 0 (-1) = IllegalArgument.
Proof.
  intros Hc. unfold translate. rewrite Hc. cbn [Z.eqb andb].
  destruct (Z.ltb_spec (Z.of_nat (line position) + 0) 0); [lia|]. done.
Qed.

Lemma pushValueParam_ok cf position rangeText acc arg :
  0 < character position ->
  pushValueParam cf position rangeText acc arg
  = Ok (push acc (valueParamItem cf rangeText arg)).
Proof.
  intros Hc. unfold pushValueParam. rewrite (translate_back _ Hc).
  cbn [mbind outcome_bind]. by rewrite (proj2 (Nat.ltb_lt _ _) Hc).
Qed.

Lemma forEach_pushValueParam cf position rangeText args acc :
  0 < character position ->
  forEach (pushValueParam cf position rangeText) args acc
  = Ok (acc ++ map (valueParamItem cf rangeText) args).
Proof.
  intros Hc. revert acc. induction args as [|a args IH]; intros acc.
  - simpl. by rewrite app_nil_r.
  - cbn [forEach]. rewrite (pushValueParam_ok _ _ _ _ _ Hc).
    cbn [mbind outcome_bind]. rewrite IH. unfold push.
    by rewrite <- app_assoc.
Qed.

Lemma forEach_pushValueParam_column_0 cf position rangeText a args acc :
  character position = 0 ->
  forEach (pushValueParam cf position rangeText) (a :: args) acc
  = IllegalArgument.
Proof.
  intros Hc. cbn [forEach]. unfold pushValueParam.
  by rewrite (translate_back_column_0 _ Hc).
Qed.

Lemma provideCompletionItems_ok B text position rangeText fs :
  parse text = Ok fs ->
  let currentFunc := getContextFunction fs (line position) in
  0 < character position \/ from_option valueArgs [] currentFunc = [] ->
  provideCompletionItems B text position rangeText
  = Ok (completionsOf B fs currentFunc
          (if 0 <? character position then rangeText else [])).
Proof.
  intros Hp currentFunc Hc. unfold provideCompletionItems, completionsOf.
  rewrite Hp. cbn [mbind outcome_bind].
  fold (getContextFunction fs (line position)). fold currentFunc.
  assert (Hloop :
    match currentFunc with
    | Some cf =>
        completions ← forEach (pushValueParam cf position rangeText)
                        (valueArgs cf) [];
        Ok (fold_left (fun acc arg => push acc (filterParamItem cf arg))
              (filterArgs cf) completions)
    | None => Ok []
    end
    = Ok (from_option
            (fun cf =>
               map (valueParamItem cf
                      (if 0 <? character position then rangeText else []))
                   (valueArgs cf))
            [] currentFunc
          ++ from_option (fun cf => map (filterParamItem cf) (filterArgs cf))
               [] currentFunc)).
  { destruct currentFunc as [cf|]; [|done]. cbn [from_option] in *.
    destruct Hc as [Hc|Hc].
    - rewrite (forEach_pushValueParam _ _ _ _ _ Hc).
      cbn [mbind outcome_bind]. rewrite fold_left_push.
      by rewrite (proj2 (Nat.ltb_lt _ _) Hc).
    - rewrite Hc. cbn [forEach mbind outcome_bind map].
      by rewrite fold_left_push. }
  rewrite Hloop. cbn [mbind outcome_bind].
  rewrite fold_left_push, fold_left_push_if. by rewrite <- !app_assoc.
Qed.

Lemma provideCompletionItems_column_0 B text position rangeText fs cf :
  parse text = Ok fs ->
  getContextFunction fs (line position) = Some cf ->
  character position = 0 -> valueArgs cf <> [] ->
  provideCompletionItems B text position rangeText = IllegalArgument.
Proof.
  intros Hp Hcf Hc Hv. unfold provideCompletionItems.
  rewrite Hp. cbn [mbind outcome_bind].
  fold (getContextFunction fs (line position)). rewrite Hcf.
  destruct (valueArgs cf) as [|a args]; [done|].
  by rewrite (forEach_pushValueParam_column_0 _ _ _ _ _ _ Hc).
Qed.

Lemma join_placeholders (n : nat) (l : list str) :
  join (js "; ") (imap (fun idx => placeholder (n + idx)) l)
  = placeholdersFrom (S n) l.
Proof.
  revert n. induction l as [|a l IH]; intros n; [done|].
  assert (Hhead : placeholder (n + 0) a
                  = js "${" ++ decimal (S n) ++ js ":"
                    ++ (if startsWith DOLLAR a then drop 1 a else a)
                    ++ js "}").
  { unfold placeholder, stripSigil, substring1.
    by replace (n + 0 + 1) with (S n) by lia. }
  cbn [imap placeholdersFrom].
  assert (Htail : imap ((fun idx => placeholder (n + idx)) ∘ S) l
                  = imap (fun idx => placeholder (S n + idx)) l).
  { apply imap_ext. intros i x _. unfold compose. f_equal. lia. }
  rewrite Htail. destruct l as [|b l].
  - cbn [imap join]. rewrite Hhead. by rewrite app_nil_r.
  - specialize (IH (S n)). cbn [imap] in IH |- *. cbn [join].
    cbn [join] in IH. rewrite Hhead, IH. by rewrite <- !app_assoc.
Qed.

Lemma functionItem_insertText (f : JQFunction) :
  insertText (functionItem f)
  = Some (if bool_decide (valueArgs f ++ filterArgs f = [])
          then PlainText (name f) else SnippetString (snippetText f)).
Proof.
  unfold functionItem, snippetText. cbn [insertText].
  rewrite <- (join_placeholders 0). cbn [Nat.add].
  by destruct (valueArgs f ++ filterArgs f).
Qed.

(** C8, as the code has it.  When the cursor stands in column 0 of a line
    inside a definition that has a value parameter, the first turn of the
    value-parameter loop calls [position.translate(0, -1)] and the provider
    throws instead of returning a list.  In every other case the completion
    list is, in this order, the value parameters of the enclosing
    definition (labels with the sigil, sort key 0000), its filter
    parameters (sort key 0001), the recovered functions whose name is not
    that of the enclosing definition (inserting the snippet of the call
    with numbered placeholders when the function has arguments, its bare
    name otherwise), and every built-in name; the last two groups carry no
    sort key. *)
Theorem C8_completion_order (BUILTINS : list str) (text : str)
    (position : Position) (rangeText : str) (fs : list JQFunction) :
  parse text = Ok fs ->
  let currentFunc := getContextFunction fs (line position) in
  let others :=
    match currentFunc with
    | Some cf =>
        List.filter (fun f => negb (bool_decide (name f = name cf))) fs
    | None => fs
    end in
  (character position = 0 ->
   from_option valueArgs [] currentFunc <> [] ->
   provideCompletionItems BUILTINS text position rangeText
   = IllegalArgument) /\
  (0 < character position \/ from_option valueArgs [] currentFunc = [] ->
   exists vs ps us bs,
     provideCompletionItems BUILTINS text position rangeText
     = Ok (vs ++ ps ++ us ++ bs) /\
     map label vs = from_option valueArgs [] currentFunc /\
     Forall (fun it => startsWith DOLLAR (label it) = true /\
                       kind it = KindVariable /\
                       sortText it = Some (js "0000")) vs /\
     map label ps = from_option filterArgs [] currentFunc /\
     Forall (fun it => kind it = KindVariable /\
                       sortText it = Some (js "0001")) ps /\
     Forall2 (fun f it =>
                label it = name f /\ kind it = KindFunction /\
                sortText it = None /\
                insertText it
                = Some (if bool_decide (valueArgs f ++ filterArgs f = [])
                        then PlainText (name f)
                        else SnippetString (snippetText f)))
             others us /\
     map label bs = BUILTINS /\
     Forall (fun it => kind it = KindFunction /\ sortText it = None) bs).
Proof.
  intros Hp currentFunc others. split.
  { intros Hc Hv. destruct currentFunc as [cf|] eqn:Hcf; [|done].
    by apply (provideCompletionItems_column_0 _ _ _ _ fs cf). }
  intros Hc.
  set (ch := if 0 <? character position then rangeText else []).
  exists (from_option (fun cf => map (valueParamItem cf ch) (valueArgs cf))
            [] currentFunc),
    (from_option (fun cf => map (filterParamItem cf) (filterArgs cf))
       [] currentFunc),
    (map functionItem others),
    (map (fun b => newCompletionItem b KindFunction) BUILTINS).
  split; [|split; [|split; [|split; [|split; [|split; [|split]]]]]].
  - rewrite (provideCompletionItems_ok _ _ _ _ _ Hp Hc).
    unfold completionsOf. fold currentFunc ch.
    by rewrite otherName_filter.
  - destruct currentFunc as [cf|] eqn:Hcf; simpl; [|done].
    rewrite map_map. simpl.
    assert (Hin : cf ∈ fs).
    { apply list_elem_of_In. by apply find_some in Hcf as [? _]. }
    rewrite <- (map_id (valueArgs cf)) at 2. apply map_ext_in.
    intros a Ha%list_elem_of_In.
    by rewrite (parse_valueArgs_sigil _ _ _ _ Hp Hin Ha).
  - destruct currentFunc as [cf|]; simpl; [|done].
    apply Forall_forall. intros it (a & -> & _)%list_elem_of_fmap. simpl.
    repeat split. by destruct (startsWith DOLLAR a) eqn:Ha.
  - destruct currentFunc as [cf|]; simpl; [|done].
    rewrite map_map. simpl. apply map_id.
  - destruct currentFunc as [cf|]; simpl; [|done].
    apply Forall_forall. by intros it (a & -> & _)%list_elem_of_fmap.
  - apply Forall2_fmap_r, Forall_Forall2_diag, Forall_forall.
    intros f _. split; [done|]. split; [done|]. split; [done|].
    apply functionItem_insertText.
  - rewrite map_map. simpl. apply map_id.
  - apply Forall_forall. by intros it (b & -> & _)%list_elem_of_fmap.
Qed.

(** ** The sigil in completions *)

(** X11: inside a definition, when the cursor is past column 0, the
    completion list starts with one item for each value parameter, labelled
    with the parameter as written: when the unit before the cursor is the
    sigil, the item inserts and filters on the name without the sigil;
    otherwise it inserts the parameter with its sigil and sets no filter
    text.  When the cursor is in column 0 and the definition has a value
    parameter, the provider throws and offers nothing. *)
Theorem X11_sigil_not_doubled (BUILTINS : list str) (text : str)
    (position : Position) (rangeText : str) (fs : list JQFunction)
    (cf : JQFunction) :
  parse text = Ok fs -> getContextFunction fs (line position) = Some cf ->
  (0 < character position ->
   exists vs rest,
     provideCompletionItems BUILTINS text position rangeText
     = Ok (vs ++ rest) /\
     Forall2
       (fun arg it =>
          label it = arg /\
          if bool_decide (rangeText = [DOLLAR])
          then insertText it = Some (PlainText (drop 1 arg)) /\
               filterText it = Some (drop 1 arg)
          else insertText it = Some (PlainText arg) /\ filterText it = None)
       (valueArgs cf) vs) /\
  (character position = 0 -> valueArgs cf <> [] ->
   provideCompletionItems BUILTINS text position rangeText
   = IllegalArgument).
Proof.
  intros Hp Hcf. split.
  - intros Hc. eexists _, _. split.
    { rewrite (provideCompletionItems_ok _ _ _ _ _ Hp (or_introl Hc)), Hcf.
      unfold completionsOf. reflexivity. }
    cbn [from_option]. rewrite (proj2 (Nat.ltb_lt _ _) Hc).
    apply Forall2_fmap_r, Forall_Forall2_diag, Forall_forall.
    intros arg Harg.
    assert (Hin : cf ∈ fs).
    { apply list_elem_of_In. by apply find_some in Hcf as [? _]. }
    pose proof (parse_valueArgs_sigil _ _ _ _ Hp Hin Harg) as Hs.
    unfold compose, valueParamItem, stripSigil, substring1, str_eqb.
    cbn [label insertText filterText newCompletionItem]. rewrite Hs.
    split; [done|]. by destruct (bool_decide (rangeText = [DOLLAR])).
  - intros Hc Hv.
    by apply (provideCompletionItems_column_0 _ _ _ _ fs cf).
Qed.

(** ** What the providers return *)

(** X12: for every text the token provider returns a list (its loop ends
    and no capture is read that is [undefined]), and so does the first
    parser.  The completion provider returns a list as well, except with
    the cursor in column 0 of a line inside a definition that has a value
    parameter, where it throws the host's illegal-argument error. *)
Theorem X12_providers_results (BUILTINS : list str) (text : str) :
  (exists spans, provideDocumentSemanticTokens BUILTINS text = Ok spans) /\
  (forall position rangeText,
     exists fs,
       parse text = Ok fs /\
       if (character position =? 0)
          && negb (bool_decide
                     (from_option valueArgs []
                        (getContextFunction fs (line position)) = []))
       then provideCompletionItems BUILTINS text position rangeText
            = IllegalArgument
       else exists items,
              provideCompletionItems BUILTINS text position rangeText
              = Ok items) /\
  (exists fs1, V1.parse text = Ok fs1).
Proof.
  split; [apply provideDocumentSemanticTokens_total|]. split.
  - intros position rangeText. destruct (parse_total text) as (fs & Hp).
    exists fs. split; [done|].
    destruct (Nat.eqb_spec (character position) 0) as [Hc|Hc]; cbn [andb].
    + destruct (bool_decide_reflect
                  (from_option valueArgs []
                     (getContextFunction fs (line position)) = []))
        as [Hv|Hv]; cbn [negb].
      * eexists. apply (provideCompletionItems_ok _ _ _ _ _ Hp). by right.
      * destruct (getContextFunction fs (line position)) as [cf|] eqn:Hcf;
          [|done].
        by apply (provideCompletionItems_column_0 _ _ _ _ fs cf).
    + eexists. apply (provideCompletionItems_ok _ _ _ _ _ Hp). left. lia.
  - apply V1_parseFrom_total.
Qed.

(** ** Token spans and completions on concrete inputs *)

Lemma C4_witness :
  parse shadow_text = Ok [shadow_f] /\
  tokensOf shadow_text = Ok shadow_tokens /\
  (13, js "keys") ∈ shadow_tokens /\
  isCommentLine (lineOf shadow_text 13) = false /\
  enclosing [shadow_f] (line (positionAt shadow_text 13)) shadow_f /\
  js "keys" ∈ paramNames shadow_f /\
  js "keys" ∈ BUILTINS_v1 /\
  categoryOf BUILTINS_v1 shadow_text [shadow_f] 13 (js "keys")
  = Some parameter /\
  exists spans,
    classifyTokens BUILTINS_v1 shadow_text [shadow_f] = Ok spans /\
    forall sp, (sp ∈ spans /\ span_start sp = positionAt shadow_text 13)
               <-> sp = spanAt shadow_text 13 (js "keys") parameter.
Proof.
  assert (H1 : parse shadow_text = Ok [shadow_f]) by (vm_compute; reflexivity).
  assert (H2 : tokensOf shadow_text = Ok shadow_tokens)
    by (vm_compute; reflexivity).
  assert (H3 : (13, js "keys") ∈ shadow_tokens).
  { do 3 apply list_elem_of_further. apply list_elem_of_here. }
  assert (H4 : isCommentLine (lineOf shadow_text 13) = false)
    by (vm_compute; reflexivity).
  assert (H5 : enclosing [shadow_f] (line (positionAt shadow_text 13)) shadow_f).
  { exists 0. split; [reflexivity|]. split; [split; vm_compute; lia|].
    intros j g Hj. lia. }
  assert (H6 : js "keys" ∈ paramNames shadow_f) by apply list_elem_of_here.
  assert (H7 : js "keys" ∈ BUILTINS_v1).
  { apply list_elem_of_further, list_elem_of_here. }
  repeat (split; [assumption|]).
  exact (C4_parameter_priority BUILTINS_v1 shadow_text [shadow_f]
           shadow_tokens shadow_f 13 (js "keys") H1 H2 H3 H4 H5 H6 H7).
Defined.

Lemma C10_witness :
  tokensOf comment_text = Ok comment_tokens /\
  (15, js "length") ∈ comment_tokens /\
  HASH ∈ take 15 comment_text /\
  isInComment comment_text 15 = isCommentLine (lineOf comment_text 15) /\
  isCommentLine (lineOf comment_text 15) = false /\
  exists spans,
    classifyTokens BUILTINS_v1 comment_text [] = Ok spans /\
    classifiedAs BUILTINS_v1 [] (line (positionAt comment_text 15))
      (js "length") (Some function_builtin) /\
    forall sp, (sp ∈ spans /\ span_start sp = positionAt comment_text 15)
               <-> Some sp = Some (spanAt comment_text 15 (js "length")
                                     function_builtin).
Proof.
  assert (H1 : tokensOf comment_text = Ok comment_tokens)
    by (vm_compute; reflexivity).
  assert (H2 : (15, js "length") ∈ comment_tokens).
  { do 2 apply list_elem_of_further. apply list_elem_of_here. }
  assert (H3 : isCommentLine (lineOf comment_text 15) = false)
    by (vm_compute; reflexivity).
  assert (H4 : categoryOf BUILTINS_v1 comment_text [] 15 (js "length")
               = Some function_builtin) by (vm_compute; reflexivity).
  destruct (C10_only_leading_hash_excludes BUILTINS_v1 comment_text []
              comment_tokens 15 (js "length") H1 H2) as [Hc Hrules].
  split; [exact H1|]. split; [exact H2|]. split.
  { do 2 apply list_elem_of_further. apply list_elem_of_here. }
  split; [exact Hc|]. split; [exact H3|].
  destruct (Hrules H3) as (spans & oc & Hspans & Hcl & Hcat & Hiff).
  rewrite H4 in Hcat. rewrite <- Hcat in Hcl, Hiff.
  exists spans. split; [exact Hspans|]. split; [exact Hcl|exact Hiff].
Defined.

Lemma C8_witness :
  parse example_text = Ok [foo_record; bar_record] /\
  provideCompletionItems BUILTINS_v1 example_text
    {| line := 1; character := 0 |} [] = IllegalArgument /\
  exists vs ps us bs,
    provideCompletionItems BUILTINS_v1 example_text
      {| line := 3; character := 2 |} (js " ")
    = Ok (vs ++ ps ++ us ++ bs) /\
    vs = [] /\ ps = [] /\
    map label us = [js "foo"] /\
    map insertText us = [Some (SnippetString (js "foo(${1:a}; ${2:b})"))] /\
    map label bs = BUILTINS_v1.
Proof.
  assert (H1 : parse example_text = Ok [foo_record; bar_record])
    by (vm_compute; reflexivity).
  split; [exact H1|]. split.
  - apply (C8_completion_order BUILTINS_v1 example_text
             {| line := 1; character := 0 |} [] _ H1); [reflexivity|].
    vm_compute. discriminate.
  - destruct (C8_completion_order BUILTINS_v1 example_text
                {| line := 3; character := 2 |} (js " ") _ H1)
      as [_ Hok].
    assert (Hpos : 0 < 2) by lia.
    destruct (Hok (or_introl Hpos))
      as (vs & ps & us & bs & Hres & Hvs & _ & Hps & _ & Hus & Hbs & _).
    exists vs, ps, us, bs. split; [exact Hres|].
    split; [by destruct vs|]. split; [by destruct ps|].
    vm_compute in Hus.
    inversion Hus as [|f u fs' us' (Hlabel & _ & _ & Hins) Hnil]; subst.
    inversion Hnil; subst. cbn [map].
    split; [f_equal; exact Hlabel|]. split; [f_equal; exact Hins|exact Hbs].
Defined.

Lemma X8_witness :
  tokensOf example_text = Ok example_tokens /\
  (36, js "foo") ∈ example_tokens /\
  foo_record ∈ [foo_record; bar_record] /\ name foo_record = js "foo" /\
  isCommentLine (lineOf example_text 36) = false /\
  exists spans sp,
    classifyTokens BUILTINS_v1 example_text [foo_record; bar_record]
    = Ok spans /\ sp ∈ spans /\
    span_start sp = positionAt example_text 36 /\
    span_length sp = length (js "foo") /\
    (span_category sp = parameter \/ span_category sp = function_user).
Proof.
  assert (H1 : tokensOf example_text = Ok example_tokens)
    by (vm_compute; reflexivity).
  assert (H2 : (36, js "foo") ∈ example_tokens).
  { do 8 apply list_elem_of_further. apply list_elem_of_here. }
  assert (H3 : foo_record ∈ [foo_record; bar_record])
    by apply list_elem_of_here.
  assert (H4 : name foo_record = js "foo") by reflexivity.
  assert (H5 : isCommentLine (lineOf example_text 36) = false)
    by (vm_compute; reflexivity).
  repeat (split; [assumption|]).
  exact (X8_defined_names_get_a_span BUILTINS_v1 example_text
           [foo_record; bar_record] example_tokens 36 (js "foo") foo_record
           H1 H2 H3 H4 H5).
Defined.

Lemma X11_witness :
  parse dollar_text = Ok [dollar_f] /\
  getContextFunction [dollar_f] 0 = Some dollar_f /\
  (exists vs rest,
     provideCompletionItems BUILTINS_v1 dollar_text
       {| line := 0; character := 15 |} (js "$")
     = Ok (vs ++ rest) /\
     Forall2
       (fun arg it =>
          label it = arg /\
          insertText it = Some (PlainText (drop 1 arg)) /\
          filterText it = Some (drop 1 arg))
       [js "$a"] vs) /\
  provideCompletionItems BUILTINS_v1 dollar_text
    {| line := 0; character := 0 |} [] = IllegalArgument.
Proof.
  assert (H1 : parse dollar_text = Ok [dollar_f]) by (vm_compute; reflexivity).
  assert (H2 : getContextFunction [dollar_f] 0 = Some dollar_f)
    by reflexivity.
  split; [exact H1|]. split; [exact H2|]. split.
  - apply (X11_sigil_not_doubled BUILTINS_v1 dollar_text
             {| line := 0; character := 15 |} (js "$") [dollar_f] dollar_f
             H1 H2). simpl. lia.
  - apply (X11_sigil_not_doubled BUILTINS_v1 dollar_text
             {| line := 0; character := 0 |} [] [dollar_f] dollar_f
             H1 H2); [reflexivity|]. vm_compute. discriminate.
Defined.
